(** * sgbv_analyzer: the scoring and ranking engine of [core.py]

    A shallow embedding of [parse_value], of the row handling of [scrape]
    and of [analyze], with the properties of the engine proved over it.

    Numbers.  A Python [int] is a [Z].  A Python or numpy [float] is an
    [xfloat]: a finite value, one of the two infinities, or NaN.  Finite
    values are exact (a rational when read from text, a real inside
    [analyze]): binary64 rounding, overflow and the sign of zero are not
    modelled, the special values and the places where they arise are.

    Text.  A Python [str] is a [string] of ASCII characters. *)

From Stdlib Require Import List String Ascii Bool ZArith QArith Qreals.
From Stdlib Require Import Reals Lra Lia Permutation Sorted.
From Stdlib Require Decimal DecimalString DecimalPos DecimalZ.
Import ListNotations.

Local Open Scope string_scope.
Local Open Scope list_scope.

(** ** Floats *)

Inductive xfloat (A : Type) : Type :=
| Fin (a : A)
| PInf
| NInf
| NaN.

Arguments Fin {A} a.
Arguments PInf {A}.
Arguments NInf {A}.
Arguments NaN {A}.

Definition xmap {A B : Type} (f : A -> B) (x : xfloat A) : xfloat B :=
  match x with
  | Fin a => Fin (f a)
  | PInf => PInf
  | NInf => NInf
  | NaN => NaN
  end.

(** What [float(s)] returns: exact decimal value, or a special value. *)
Definition pyfloat : Type := xfloat Q.

(** A numpy float64 (and the float appended to a record). *)
Definition npfloat : Type := xfloat R.

(** ** Python's [str] operations used by [parse_value] *)

Module PyStr.

(** [s.replace(a, b)] for one-character [a] and [b]. *)
Fixpoint replace_char (a b : ascii) (s : string) : string :=
  match s with
  | EmptyString => EmptyString
  | String c s' =>
      String (if Ascii.eqb c a then b else c) (replace_char a b s')
  end.

(** [s.replace(a, "")] for a one-character [a]. *)
Fixpoint remove_char (a : ascii) (s : string) : string :=
  match s with
  | EmptyString => EmptyString
  | String c s' =>
      if Ascii.eqb c a then remove_char a s' else String c (remove_char a s')
  end.

(** [a in s] for a one-character [a]. *)
Fixpoint contains_char (a : ascii) (s : string) : bool :=
  match s with
  | EmptyString => false
  | String c s' => Ascii.eqb c a || contains_char a s'
  end.

(** The characters [int] and [float] skip at both ends of an ASCII
    string: space, tab, line feed, vertical tab, form feed, return. *)
Definition is_space (c : ascii) : bool :=
  let n := nat_of_ascii c in
  Nat.eqb n 32 || (Nat.leb 9 n && Nat.leb n 13).

Fixpoint lstrip (l : list ascii) : list ascii :=
  match l with
  | c :: l' => if is_space c then lstrip l' else l
  | [] => []
  end.

Definition strip (l : list ascii) : list ascii :=
  rev (lstrip (rev (lstrip l))).

Definition is_digit (c : ascii) : bool :=
  let n := nat_of_ascii c in Nat.leb 48 n && Nat.leb n 57.

Definition digit_val (c : ascii) : Z := Z.of_nat (nat_of_ascii c) - 48.

(** Digit grouping: an underscore is accepted only between two digits;
    the accepted ones are dropped.  [prev] is the character before [l]. *)
Fixpoint drop_underscores (prev : option ascii) (l : list ascii)
  : option (list ascii) :=
  let after_digit :=
    match prev with Some p => is_digit p | None => false end in
  let after_underscore :=
    match prev with Some p => Ascii.eqb p "_" | None => false end in
  match l with
  | [] => if after_underscore then None else Some []
  | c :: l' =>
      if Ascii.eqb c "_" then
        if after_digit then drop_underscores (Some c) l' else None
      else
        if after_underscore && negb (is_digit c) then None
        else option_map (cons c) (drop_underscores (Some c) l')
  end.

(** The leading digits of [l], and what follows them. *)
Fixpoint span_digits (l : list ascii) : list ascii * list ascii :=
  match l with
  | c :: l' =>
      if is_digit c then
        let (ds, rest) := span_digits l' in (c :: ds, rest)
      else ([], l)
  | [] => ([], [])
  end.

Definition digits_value (ds : list ascii) : Z :=
  fold_left (fun acc c => 10 * acc + digit_val c)%Z ds 0%Z.

(** An optional sign: [true] for a leading minus. *)
Definition take_sign (l : list ascii) : bool * list ascii :=
  match l with
  | c :: l' =>
      if Ascii.eqb c "-" then (true, l')
      else if Ascii.eqb c "+" then (false, l')
      else (false, l)
  | [] => (false, [])
  end.

(** [int(s)] in base 10; [None] is [ValueError]. *)
Definition py_int (s : string) : option Z :=
  let (neg, body) := take_sign (strip (list_ascii_of_string s)) in
  match drop_underscores None body with
  | None => None
  | Some body' =>
      match span_digits body' with
      | (d :: ds, []) =>
          let v := digits_value (d :: ds) in
          Some (if neg then (- v)%Z else v)
      | _ => None
      end
  end.

Definition lower (c : ascii) : ascii :=
  let n := nat_of_ascii c in
  if Nat.leb 65 n && Nat.leb n 90 then ascii_of_nat (n + 32) else c.

(** [m * 10^e] as a rational. *)
Definition scale10 (m e : Z) : Q :=
  if (0 <=? e)%Z then inject_Z (m * 10 ^ e)
  else Qmake m (Z.to_pos (10 ^ (- e))).

(** An optional exponent part: [e] or [E], an optional sign, digits.
    [Some None] is no exponent at all, [None] a malformed one. *)
Definition take_exponent (l : list ascii) : option (option Z) :=
  match l with
  | [] => Some None
  | c :: l' =>
      if Ascii.eqb (lower c) "e" then
        let (neg, body) := take_sign l' in
        match span_digits body with
        | (d :: ds, []) =>
            let v := digits_value (d :: ds) in
            Some (Some (if neg then (- v)%Z else v))
        | _ => None
        end
      else None
  end.

(** [float(s)]; [None] is [ValueError]. *)
Definition py_float (s : string) : option pyfloat :=
  match drop_underscores None (strip (list_ascii_of_string s)) with
  | None => None
  | Some l =>
      let (neg, body) := take_sign l in
      let word := string_of_list_ascii (map lower body) in
      if String.eqb word "inf" || String.eqb word "infinity" then
        Some (if neg then NInf else PInf)
      else if String.eqb word "nan" then Some NaN
      else
        let (ip, rest) := span_digits body in
        let (fp, rest') :=
          match rest with
          | c :: r => if Ascii.eqb c "." then span_digits r else ([], rest)
          | [] => ([], [])
          end in
        match ip ++ fp with
        | [] => None
        | _ =>
            match take_exponent rest' with
            | None => None
            | Some ex =>
                let e := match ex with Some e => e | None => 0%Z end in
                let m := digits_value (ip ++ fp) in
                let q := scale10 m (e - Z.of_nat (List.length fp)) in
                Some (Fin (if neg then Qopp q else q))
            end
        end
  end.

End PyStr.

(** ** Parsed cells and the Value Parser *)

(** A parsed cell: what [parse_value] returns, and what a record holds. *)
Inductive cell : Type :=
| CInt (z : Z)
| CFloat (x : npfloat)
| CText (s : string).

Definition np_of_py (f : pyfloat) : npfloat := xmap Q2R f.

(** [parse_value] of [scrape]. *)
Definition parse_value (val : string) : cell :=
  if String.eqb val "NC" || String.eqb val "-" then CInt 0
  else
    let clean := PyStr.replace_char "," "." (PyStr.remove_char " " val) in
    if PyStr.contains_char "." clean then
      match PyStr.py_float clean with
      | Some f => CFloat (np_of_py f)
      | None => CText val
      end
    else
      match PyStr.py_int clean with
      | Some z => CInt z
      | None => CText val
      end.

(** ** Failure *)

(** The exceptions the engine can raise. *)
Inductive pyerr : Type :=
| IndexError
| ValueError.

Inductive result (A : Type) : Type :=
| Ok (a : A)
| Raise (e : pyerr).

Arguments Ok {A} a.
Arguments Raise {A} e.

Definition bind {A B : Type} (m : result A) (k : A -> result B) : result B :=
  match m with
  | Ok a => k a
  | Raise e => Raise e
  end.

Notation "x <- m ;; k" := (bind m (fun x => k))
  (at level 61, m at next level, right associativity).

(** A loop body run over a list, stopping at the first exception. *)
Fixpoint mapM {A B : Type} (f : A -> result B) (l : list A)
  : result (list B) :=
  match l with
  | [] => Ok []
  | a :: l' => b <- f a ;; bs <- mapM f l' ;; Ok (b :: bs)
  end.

(** ** numpy float arithmetic *)

Module Np.

Local Open Scope R_scope.

Definition add (x y : npfloat) : npfloat :=
  match x, y with
  | NaN, _ | _, NaN => NaN
  | PInf, NInf | NInf, PInf => NaN
  | PInf, _ | _, PInf => PInf
  | NInf, _ | _, NInf => NInf
  | Fin a, Fin b => Fin (a + b)
  end.

Definition neg (x : npfloat) : npfloat :=
  match x with
  | Fin a => Fin (- a)
  | PInf => NInf
  | NInf => PInf
  | NaN => NaN
  end.

Definition sub (x y : npfloat) : npfloat := add x (neg y).

(** Division never raises: a zero divisor gives NaN for [0 / 0] and an
    infinity otherwise.  A zero divisor is taken as [+0.0]: the divisors
    of this program are sums of norms and of positive constants. *)
Definition div (x y : npfloat) : npfloat :=
  match x, y with
  | NaN, _ | _, NaN => NaN
  | Fin a, Fin b =>
      if Req_dec_T b 0 then
        if Req_dec_T a 0 then NaN
        else if Rlt_dec 0 a then PInf else NInf
      else Fin (a / b)
  | Fin _, _ => Fin 0
  | PInf, Fin b => if Rle_dec 0 b then PInf else NInf
  | NInf, Fin b => if Rle_dec 0 b then NInf else PInf
  | _, _ => NaN
  end.

(** [x < y] on floats: false as soon as one side is NaN. *)
Definition ltb (x y : npfloat) : bool :=
  match x, y with
  | NaN, _ | _, NaN => false
  | _, NInf => false
  | NInf, _ => true
  | PInf, _ => false
  | _, PInf => true
  | Fin a, Fin b => if Rlt_dec a b then true else false
  end.

(** [x == y] on floats. *)
Definition eqb (x y : npfloat) : bool :=
  match x, y with
  | Fin a, Fin b => if Req_dec_T a b then true else false
  | PInf, PInf | NInf, NInf => true
  | _, _ => false
  end.

Definition is_nan (x : npfloat) : bool :=
  match x with NaN => true | _ => false end.

(** One step of a [min] / [max] reduction; NaN propagates. *)
Definition min2 (x y : npfloat) : npfloat :=
  if is_nan x || is_nan y then NaN else if ltb y x then y else x.

Definition max2 (x y : npfloat) : npfloat :=
  if is_nan x || is_nan y then NaN else if ltb x y then y else x.

(** [arr.min()] and [arr.max()]: [ValueError] on a zero-size array. *)
Definition amin (arr : list npfloat) : result npfloat :=
  match arr with
  | [] => Raise ValueError
  | x :: l => Ok (fold_left min2 l x)
  end.

Definition amax (arr : list npfloat) : result npfloat :=
  match arr with
  | [] => Raise ValueError
  | x :: l => Ok (fold_left max2 l x)
  end.

End Np.

(** ** Reductions over a matrix of finite values *)

Module Mat.

Local Open Scope R_scope.

(** A two-dimensional float array with finite entries. *)
Definition array2 : Type := list (list R).

(** [X[:, j]] *)
Definition column (j : nat) (X : array2) : list R :=
  map (fun row => nth j row 0) X.

(** [X.shape[1]] of a matrix with at least one row. *)
Definition ncols (X : array2) : nat := List.length (hd [] X).

(** Every row of [X] has [n] entries. *)
Definition rect (n : nat) (X : array2) : Prop :=
  Forall (fun row => List.length row = n) X.

(** Minimum and maximum of a column with at least one entry. *)
Definition lmin (l : list R) : R :=
  match l with
  | [] => 0
  | x :: l' => fold_left Rmin l' x
  end.

Definition lmax (l : list R) : R :=
  match l with
  | [] => 0
  | x :: l' => fold_left Rmax l' x
  end.

(** [np.min(X, axis=0)] and [np.max(X, axis=0)]: [ValueError] on a
    matrix with no row. *)
Definition min_axis0 (X : array2) : result (list R) :=
  match X with
  | [] => Raise ValueError
  | _ => Ok (map (fun j => lmin (column j X)) (seq 0 (ncols X)))
  end.

Definition max_axis0 (X : array2) : result (list R) :=
  match X with
  | [] => Raise ValueError
  | _ => Ok (map (fun j => lmax (column j X)) (seq 0 (ncols X)))
  end.

(** [v[i] = a] where [i] is within [v]. *)
Fixpoint set_nth (i : nat) (a : R) (v : list R) : list R :=
  match v, i with
  | [], _ => []
  | _ :: v', O => a :: v'
  | b :: v', S i' => b :: set_nth i' a v'
  end.

Definition sum (l : list R) : R := fold_right Rplus 0 l.

(** [x @ w] *)
Definition dot (x w : list R) : R :=
  sum (map (fun p => fst p * snd p) (combine x w)).

(** [np.linalg.norm(x - p)] *)
Definition dist (x p : list R) : R :=
  sqrt (sum (map (fun p => (fst p - snd p) * (fst p - snd p)) (combine x p))).

End Mat.

(** ** Python's [sorted] *)

Module PySort.

Section Sorted.

Context {A : Type} (key : A -> npfloat).

(** [x] goes behind the elements whose key is below its own; only [<]
    is ever asked of two keys. *)
Fixpoint insert (x : A) (s : list A) : list A :=
  match s with
  | [] => [x]
  | y :: s' => if Np.ltb (key y) (key x) then y :: insert x s' else x :: s
  end.

(** The stable ascending sort. *)
Definition sort_asc (l : list A) : list A := fold_right insert [] l.

(** [sorted(l, key=key, reverse=True)]: the list is reversed, sorted
    ascending and stably, and reversed again.  On keys that are all
    finite or all NaN, the only ones the engine makes, every stable sort
    that asks nothing but [<] of two keys gives this result. *)
Definition sorted_reverse (l : list A) : list A := rev (sort_asc (rev l)).

(** [x] does not come after [y] in ascending key order; it takes both
    keys to be finite. *)
Definition key_le (x y : A) : Prop :=
  match key x, key y with
  | Fin a, Fin b => (a <= b)%R
  | _, _ => False
  end.

Definition key_ge (x y : A) : Prop := key_le y x.

Definition finite_key (x : A) : Prop := exists a, key x = Fin a.

(** The elements whose key equals [k], in the order of the list. *)
Definition with_key (k : npfloat) (l : list A) : list A :=
  filter (fun x => Np.eqb (key x) k) l.

End Sorted.

End PySort.

(** ** The engine *)

Module Engine.

Import Mat.

Local Open Scope R_scope.

(** A record: the parsed cells of one table row. *)
Definition record : Type := list cell.

(** *** [scrape], from the extracted table on *)

(** The cell texts of the rows of the table ([None]: the page has no
    such table), as [find_all] and [get_text] deliver them. *)
Definition table : Type := option (list (list string)).

Definition scrape_rows (t : table) : list record :=
  let matrix :=
    match t with
    | None => []
    | Some rows =>
        flat_map
          (fun cols_text =>
             match cols_text with
             | [] => []
             | _ => [map parse_value cols_text]
             end)
          rows
    end in
  if Nat.ltb 1 (List.length matrix) then tl matrix else [].

(** *** [analyze] *)

(** [row[i]] *)
Definition getitem (row : record) (i : nat) : result cell :=
  match nth_error row i with
  | Some c => Ok c
  | None => Raise IndexError
  end.

(** [c == 0] for a cell [c]. *)
Definition is_zero (c : cell) : Prop :=
  match c with
  | CInt z => z = 0%Z
  | CFloat (Fin r) => r = 0
  | CFloat _ => False
  | CText _ => False
  end.

Definition is_zero_dec (c : cell) : {is_zero c} + {~ is_zero c}.
Proof.
  destruct c as [z | [r | | |] | s]; simpl.
  - apply Z.eq_dec.
  - apply Req_dec_T.
  - right; tauto.
  - right; tauto.
  - right; tauto.
  - right; tauto.
Defined.

(** The body of the first loop: the nine cells of the feature vector. *)
Definition features (row : record) : result (list cell) :=
  opening <- getitem row 2 ;;
  c3 <- getitem row 3 ;;
  closing <- (if is_zero_dec c3 then getitem row 2 else getitem row 3) ;;
  change <- getitem row 4 ;;
  monthly <- getitem row 5 ;;
  annual <- getitem row 6 ;;
  pe <- getitem row 7 ;;
  dividend <- getitem row 8 ;;
  volume <- getitem row 9 ;;
  value <- getitem row 10 ;;
  Ok [opening; closing; change; monthly; annual; pe; dividend; volume; value].

(** One entry of [np.array(..., dtype=float)]: a text is read the way
    [float] reads it. *)
Definition to_float (c : cell) : result npfloat :=
  match c with
  | CInt z => Ok (Fin (IZR z))
  | CFloat x => Ok x
  | CText s =>
      match PyStr.py_float s with
      | Some f => Ok (np_of_py f)
      | None => Raise ValueError
      end
  end.

Definition np_array (data : list (list cell)) : result (list (list npfloat)) :=
  mapM (mapM to_float) data.

Definition finite (x : npfloat) : result R :=
  match x with
  | Fin r => Ok r
  | _ => Raise ValueError
  end.

(** The row [x] of the feature matrix holds the values of the feature
    cells of the record [row]. *)
Definition row_of (row : record) (x : list R) : Prop :=
  exists fv, features row = Ok fv /\
             Forall2 (fun c v => to_float c = Ok (Fin v)) fv x.

(** The input validation of scikit-learn's estimators: [MinMaxScaler]
    refuses an array with no row and an infinite entry, [PCA] a NaN, each
    with [ValueError] and before anything is computed from the array. *)
Definition check_array (X : list (list npfloat)) : result array2 :=
  match X with
  | [] => Raise ValueError
  | _ => mapM (mapM finite) X
  end.

(** Modelled from the spec: [MinMaxScaler.fit_transform] is scikit-learn's
    and not in the repository.  Per column, [(v - min) / (max - min)], and
    0 throughout a column whose [max] is its [min]. *)
Definition scale_value (mn mx v : R) : R :=
  if Req_dec_T mx mn then 0 else (v - mn) / (mx - mn).

(** Modelled from the spec: the Normalizer, [MinMaxScaler().fit_transform].
    It returns the array it was given, as it is after the call, next to
    the scaled one: a new array of the same shape. *)
Definition fit_transform (X : array2) : result (array2 * array2) :=
  mn <- min_axis0 X ;;
  mx <- max_axis0 X ;;
  Ok (X,
      map (fun row =>
             map (fun p => scale_value (fst (snd p)) (snd (snd p)) (fst p))
                 (combine row (combine mn mx)))
          X).

(** The first loop, [np.array] and the Normalizer: the feature matrix
    [X] and its scaled copy [X_scaled]. *)
Definition prepare (matrix : list record) : result (array2 * array2) :=
  numeric_data <- mapM features matrix ;;
  X0 <- np_array numeric_data ;;
  X <- check_array X0 ;;
  fit_transform X.

Definition benefit_idx : list nat := [2; 3; 4; 6; 7; 8]%nat.
Definition cost_idx : list nat := [0; 1; 5]%nat.

(** [ideal_best[i], ideal_worst[i] = ideal_worst[i], ideal_best[i]] *)
Definition swap_at (bw : list R * list R) (i : nat) : list R * list R :=
  (set_nth i (nth i (snd bw) 0) (fst bw), set_nth i (nth i (fst bw) 0) (snd bw)).

(** The ideal-best and the ideal-worst point of the scaled matrix. *)
Definition ideal_points (X_scaled : array2) : result (list R * list R) :=
  ideal_best <- max_axis0 X_scaled ;;
  ideal_worst <- min_axis0 X_scaled ;;
  Ok (fold_left swap_at cost_idx (ideal_best, ideal_worst)).

(** [dist_worst / (dist_best + dist_worst)] for one record. *)
Definition topsis_score (dist_best dist_worst : R) : npfloat :=
  Np.div (Fin dist_worst) (Np.add (Fin dist_best) (Fin dist_worst)).

Definition topsis_scores (X_scaled : array2) : result (list npfloat) :=
  bw <- ideal_points X_scaled ;;
  let dist_best := map (fun x => dist x (fst bw)) X_scaled in
  let dist_worst := map (fun x => dist x (snd bw)) X_scaled in
  Ok (map (fun p => topsis_score (fst p) (snd p))
          (combine dist_best dist_worst)).

Definition weights : list R :=
  [ -0.2  (* Opening *)
  ; -0.2  (* Closing *)
  ; -0.2  (* Change % *)
  ; 0.2   (* Monthly % Change *)
  ; 0.2   (* Annual % Change *)
  ; -0.2  (* P/E *)
  ; 0.2   (* Dividend Yield *)
  ; 0.2   (* Volume *)
  ; 0.2   (* Value *) ].

(** [X_scaled @ weights], less [np.tanh(X[:, 5] / 50)]. *)
Definition weighted_scores (X X_scaled : array2) : list R :=
  let weighted := map (fun x => dot x weights) X_scaled in
  let pe_column := column 5 X in
  let pe_penalty := map (fun pe => tanh (pe / 50)) pe_column in
  map (fun p => fst p - snd p) (combine weighted pe_penalty).

(** [normalize] of [analyze]. *)
Definition normalize (arr : list npfloat) : result (list npfloat) :=
  lo <- Np.amin arr ;;
  hi <- Np.amax arr ;;
  Ok (map (fun x => Np.div (Np.sub x lo) (Np.add (Np.sub hi lo) (Fin 1e-9)))
          arr).

(** An entry of [normalize(arr)] for an array of finite values. *)
Definition rescale (l : list R) (x : R) : R :=
  (x - lmin l) / (lmax l - lmin l + 1e-9).

(** [(pca_norm + topsis_norm + weighted_norm) / 3] *)
Definition final_score (pca_norm topsis_norm weighted_norm : list npfloat)
  : list npfloat :=
  map (fun p => Np.div (Np.add (Np.add (fst (fst p)) (snd (fst p))) (snd p))
                       (Fin 3))
      (combine (combine pca_norm topsis_norm) weighted_norm).

(** A finite score between 0 and 1. *)
Definition unit_score (s : npfloat) : Prop :=
  exists v, s = Fin v /\ 0 <= v <= 1.

(** The second loop: every record gets its score appended.  The records
    [scrape] makes are lists of their own, so each is appended to once. *)
Definition append_scores (matrix : list record) (final : list npfloat)
  : list record :=
  map (fun p => fst p ++ [CFloat (snd p)]) (combine matrix final).

(** [r[-1]] as a sort key.  [sorted] only ever sees records that end
    with the float appended by the second loop. *)
Definition key (r : record) : npfloat :=
  match last r (CText "") with
  | CFloat x => x
  | CInt z => Fin (IZR z)
  | CText _ => NaN
  end.

Section Analyze.

(** scikit-learn's [PCA(n_components=1)], fitted on a matrix: the
    projection of a row on the first principal axis of that matrix. *)
Variable pca_project : array2 -> list R -> R.

Definition pca_scores (X_scaled : array2) : list R :=
  map (pca_project X_scaled) X_scaled.

(** The composite score of every record, in the order of [matrix]. *)
Definition scores (matrix : list record) : result (list npfloat) :=
  XXs <- prepare matrix ;;
  let X := fst XXs in
  let X_scaled := snd XXs in
  topsis <- topsis_scores X_scaled ;;
  pca_norm <- normalize (map Fin (pca_scores X_scaled)) ;;
  topsis_norm <- normalize topsis ;;
  weighted_norm <- normalize (map Fin (weighted_scores X X_scaled)) ;;
  Ok (final_score pca_norm topsis_norm weighted_norm).

Definition analyze (matrix : list record) : result (list record) :=
  final <- scores matrix ;;
  Ok (PySort.sorted_reverse key (append_scores matrix final)).

(** [analyze(scrape())], from the extracted table on. *)
Definition pipeline (t : table) : result (list record) :=
  analyze (scrape_rows t).

End Analyze.

End Engine.

(** ** Sample inputs *)

Module Sample.

Import Engine.

Local Open Scope R_scope.

(** The cell texts of a header row and of two data rows. *)
Definition header_text : list string :=
  ["N"; "Company"; "Opening"; "Closing"; "Change"; "Monthly"; "Annual";
   "PER"; "Yield"; "Volume"; "Value"].

Definition alpha_text : list string :=
  ["1"; "ALPHA"; "100"; "NC"; "1,5"; "2"; "3"; "10"; "4"; "50"; "5 000"].

Definition beta_text : list string :=
  ["2"; "BETA"; "200"; "210"; "0,5"; "1"; "2"; "20"; "3"; "40"; "8 400"].

(** The record [parse_value] makes of [alpha_text]. *)
Definition alpha : record :=
  [CInt 1; CText "ALPHA"; CInt 100; CInt 0; CFloat (Fin 1.5); CInt 2;
   CInt 3; CInt 10; CInt 4; CInt 50; CInt 5000].

Definition beta : record :=
  [CInt 2; CText "BETA"; CInt 200; CInt 210; CFloat (Fin 0.5); CInt 1;
   CInt 2; CInt 20; CInt 3; CInt 40; CInt 8400].

(** The feature vector of [alpha]: the opening price stands in for
    the closing price, which is not quoted. *)
Definition alpha_features : list R := [100; 100; 1.5; 2; 3; 10; 4; 50; 5000].

Definition beta_features : list R := [200; 210; 0.5; 1; 2; 20; 3; 40; 8400].

(** The scaled matrix of a one-record input. *)
Definition zero_row : list R := [0; 0; 0; 0; 0; 0; 0; 0; 0].

(** Another record with the feature cells of [alpha]. *)
Definition alpha_twin : record :=
  [CInt 9; CText "OMEGA"; CInt 100; CInt 100; CFloat (Fin 1.5); CInt 2;
   CInt 3; CInt 10; CInt 4; CInt 50; CInt 5000].

(** A scaled matrix of two records that differ in every feature. *)
Definition one_row : list R := [1; 1; 1; 1; 1; 1; 1; 1; 1].

(** A stand-in for the principal-axis projection. *)
Definition no_pca (X : Mat.array2) (x : list R) : R := 0.

End Sample.

(** ** The presentation layer of [main.py] *)

Module Gui.

Import Engine.

(** [str(n)] for an int [n]. *)
Definition str_int (z : Z) : string :=
  DecimalString.NilZero.string_of_int (Z.to_int z).

(** What [ScrapingThread.run] can catch: an exception of the request
    made by [scrape], or one of the engine. *)
Inductive failure : Type :=
| RequestFailed
| EngineFailed (e : pyerr).

(** The outcome of the request of [scrape]: [requests.get] or
    [raise_for_status] raised, or the page came and this is its table. *)
Inductive fetched : Type :=
| FetchRaised
| Page (t : table).

(** The signals of [ScrapingThread]. *)
Inductive signal : Type :=
| Progress (n : Z)
| Finished (data : list record)
| Error (e : failure).

Section Thread.

Variable pca_project : Mat.array2 -> list R -> R.

(** [ScrapingThread.run]: the signals it emits, in order. *)
Definition run (page : fetched) : list signal :=
  Progress 20 ::
  match page with
  | FetchRaised => [Error RequestFailed]
  | Page t =>
      let matrix := scrape_rows t in
      Progress 60 :: Progress 80 ::
      match analyze pca_project matrix with
      | Ok ranked_data => [Progress 100; Finished ranked_data]
      | Raise e => [Error (EngineFailed e)]
      end
  end.

End Thread.

Definition is_progress (s : signal) : Prop :=
  match s with Progress _ => True | _ => False end.

Definition progress_value (s : signal) : Z :=
  match s with Progress n => n | _ => 0%Z end.

(** The foreground colours of [populate_table]. *)
Inductive colour : Type :=
| Green
| Red.

(** [float(str(value).replace('%', ''))]; [None] is [ValueError].  A
    float is shown by its [repr], which [float] reads back as the same
    float. *)
Definition reread (value : cell) : option npfloat :=
  match value with
  | CInt z =>
      option_map np_of_py (PyStr.py_float (PyStr.remove_char "%" (str_int z)))
  | CFloat x => Some x
  | CText s => option_map np_of_py (PyStr.py_float (PyStr.remove_char "%" s))
  end.

(** The colour [populate_table] gives the cell [value] of column
    [col_idx]; [None]: the item keeps the default colour. *)
Definition foreground (col_idx : nat) (value : cell) : option colour :=
  if existsb (Nat.eqb col_idx) [4; 5; 6; 8; 11]%nat then
    match reread value with
    | Some num_value =>
        if Np.ltb (Fin 0%R) num_value then Some Green
        else if Np.ltb num_value (Fin 0%R) then Some Red
        else None
    | None => None
    end
  else None.

End Gui.

(** * Properties *)

(** ** The Value Parser *)

Section ValueParser.

Import PyStr.

Lemma parse_value_sentinel (val : string) :
  val = "NC" \/ val = "-" -> parse_value val = CInt 0.
Proof. intros [-> | ->]; reflexivity. Qed.

Lemma parse_value_other (val : string) :
  val <> "NC" -> val <> "-" ->
  parse_value val =
    let clean := replace_char "," "." (remove_char " " val) in
    if contains_char "." clean then
      match py_float clean with
      | Some f => CFloat (np_of_py f)
      | None => CText val
      end
    else
      match py_int clean with
      | Some z => CInt z
      | None => CText val
      end.
Proof.
  intros Hnc Hdash. unfold parse_value.
  apply String.eqb_neq in Hnc. apply String.eqb_neq in Hdash.
  rewrite Hnc, Hdash. reflexivity.
Qed.

(** A text comes back only as the very text that was given. *)
Lemma parse_value_text (val s : string) :
  parse_value val = CText s -> s = val.
Proof.
  unfold parse_value.
  destruct (_ || _); [discriminate |].
  destruct (contains_char _ _).
  - destruct (py_float _); [discriminate | congruence].
  - destruct (py_int _); [discriminate | congruence].
Qed.

Lemma parse_value_decimal_comma :
  parse_value "1 234,56" = CFloat (Fin 1234.56%R).
Proof.
  unfold parse_value; simpl.
  unfold np_of_py, xmap, Q2R; simpl.
  reflexivity.
Qed.

(** C5.  The Value Parser maps "NC" and "-" to the integer 0.  Any other
    text is stripped of its spaces and has its commas turned into dots;
    with a dot in it the result goes through the real-number conversion,
    without one through the integer conversion, and the value converted
    is returned, or the given text itself when the conversion fails.  The
    parser is a total function: it raises nothing.  So "NC" and "-" give
    0, "1 234,56" gives 1234.56 and "abc" gives "abc". *)
Theorem parse_value_spec :
  parse_value "NC" = CInt 0 /\
  parse_value "-" = CInt 0 /\
  (forall val, val <> "NC" -> val <> "-" ->
     let clean := replace_char "," "." (remove_char " " val) in
     (contains_char "." clean = true ->
      parse_value val = match py_float clean with
                        | Some f => CFloat (np_of_py f)
                        | None => CText val
                        end) /\
     (contains_char "." clean = false ->
      parse_value val = match py_int clean with
                        | Some z => CInt z
                        | None => CText val
                        end)) /\
  (forall val s, parse_value val = CText s -> s = val) /\
  parse_value "1 234,56" = CFloat (Fin 1234.56%R) /\
  parse_value "abc" = CText "abc".
Proof.
  split; [reflexivity |].
  split; [reflexivity |].
  split.
  - intros val Hnc Hdash clean.
    pose proof (parse_value_other val Hnc Hdash) as H.
    cbv zeta in H. fold clean in H.
    split; intros Hdot; rewrite Hdot in H; exact H.
  - split; [exact parse_value_text |].
    split; [exact parse_value_decimal_comma | reflexivity].
Qed.

End ValueParser.

(** ** Failure and loops *)

Section Loops.

Context {A B : Type} (f : A -> result B).

Lemma mapM_Forall2 (l : list A) (l' : list B) :
  mapM f l = Ok l' -> Forall2 (fun a b => f a = Ok b) l l'.
Proof.
  revert l'. induction l as [| a l IH]; simpl; intros l' H.
  - injection H as <-. constructor.
  - destruct (f a) as [b |] eqn:Hb; simpl in H; [| discriminate].
    destruct (mapM f l) as [bs |]; simpl in H; [| discriminate].
    injection H as <-. constructor; auto.
Qed.

Lemma mapM_length (l : list A) (l' : list B) :
  mapM f l = Ok l' -> List.length l' = List.length l.
Proof.
  intros H. apply mapM_Forall2 in H.
  symmetry. eapply Forall2_length; eassumption.
Qed.

Lemma mapM_nth_error (l : list A) (l' : list B) (i : nat) (a : A) :
  mapM f l = Ok l' -> nth_error l i = Some a ->
  exists b, nth_error l' i = Some b /\ f a = Ok b.
Proof.
  intros H. apply mapM_Forall2 in H. revert i.
  induction H as [| x y l l' Hxy H IH]; intros [| i] Hi; simpl in *;
    try discriminate.
  - injection Hi as <-. eauto.
  - auto.
Qed.

(** A loop whose body raises nothing but [E] raises [E] as soon as the
    body raises on some element. *)
Lemma mapM_Exists_raise (E : pyerr) (l : list A) :
  (forall a e, f a = Raise e -> e = E) ->
  Exists (fun a => f a = Raise E) l -> mapM f l = Raise E.
Proof.
  intros Hf. induction 1 as [a l H | a l _ IH]; simpl.
  - now rewrite H.
  - destruct (f a) as [b | e] eqn:Ha; simpl.
    + now rewrite IH.
    + f_equal. eapply Hf, Ha.
Qed.

End Loops.

(** ** Minimum and maximum of a column *)

Section Extrema.

Import Mat.

Local Open Scope R_scope.

Lemma fold_Rmin_le (l : list R) (a : R) :
  fold_left Rmin l a <= a /\ (forall x, In x l -> fold_left Rmin l a <= x).
Proof.
  revert a. induction l as [| y l IH]; simpl; intros a.
  - split; [lra | tauto].
  - destruct (IH (Rmin a y)) as [H1 H2].
    pose proof (Rmin_l a y). pose proof (Rmin_r a y).
    split; [lra |].
    intros x [<- | Hx]; [lra | auto].
Qed.

Lemma fold_Rmin_In (l : list R) (a : R) :
  fold_left Rmin l a = a \/ In (fold_left Rmin l a) l.
Proof.
  revert a. induction l as [| y l IH]; simpl; intros a; [now left |].
  destruct (IH (Rmin a y)) as [H | H]; [| now right; right].
  rewrite H. unfold Rmin. destruct (Rle_dec a y); [now left | now right; left].
Qed.

Lemma fold_Rmax_ge (l : list R) (a : R) :
  a <= fold_left Rmax l a /\ (forall x, In x l -> x <= fold_left Rmax l a).
Proof.
  revert a. induction l as [| y l IH]; simpl; intros a.
  - split; [lra | tauto].
  - destruct (IH (Rmax a y)) as [H1 H2].
    pose proof (Rmax_l a y). pose proof (Rmax_r a y).
    split; [lra |].
    intros x [<- | Hx]; [lra | auto].
Qed.

Lemma fold_Rmax_In (l : list R) (a : R) :
  fold_left Rmax l a = a \/ In (fold_left Rmax l a) l.
Proof.
  revert a. induction l as [| y l IH]; simpl; intros a; [now left |].
  destruct (IH (Rmax a y)) as [H | H]; [| now right; right].
  rewrite H. unfold Rmax. destruct (Rle_dec a y); [now right; left | now left].
Qed.

Lemma lmin_le (l : list R) (x : R) : In x l -> lmin l <= x.
Proof.
  destruct l as [| a l]; simpl; [tauto |].
  destruct (fold_Rmin_le l a) as [H1 H2].
  intros [<- | Hx]; auto.
Qed.

Lemma lmax_ge (l : list R) (x : R) : In x l -> x <= lmax l.
Proof.
  destruct l as [| a l]; simpl; [tauto |].
  destruct (fold_Rmax_ge l a) as [H1 H2].
  intros [<- | Hx]; auto.
Qed.

Lemma lmin_In (l : list R) : l <> [] -> In (lmin l) l.
Proof.
  destruct l as [| a l]; [congruence |]; intros _; simpl.
  destruct (fold_Rmin_In l a) as [-> | H]; auto.
Qed.

Lemma lmax_In (l : list R) : l <> [] -> In (lmax l) l.
Proof.
  destruct l as [| a l]; [congruence |]; intros _; simpl.
  destruct (fold_Rmax_In l a) as [-> | H]; auto.
Qed.

Lemma lmin_le_lmax (l : list R) : lmin l <= lmax l.
Proof.
  destruct l as [| a l]; [simpl; lra |].
  apply lmax_ge, lmin_In. discriminate.
Qed.

(** The least value of a list is characterised by being in it and
    below all of it; likewise the greatest. *)
Lemma lmin_unique (l : list R) (m : R) :
  In m l -> (forall x, In x l -> m <= x) -> lmin l = m.
Proof.
  intros Hin Hle.
  assert (Hne : l <> []) by (destruct l; [destruct Hin | discriminate]).
  pose proof (lmin_le l m Hin). pose proof (Hle _ (lmin_In l Hne)). lra.
Qed.

Lemma lmax_unique (l : list R) (m : R) :
  In m l -> (forall x, In x l -> x <= m) -> lmax l = m.
Proof.
  intros Hin Hle.
  assert (Hne : l <> []) by (destruct l; [destruct Hin | discriminate]).
  pose proof (lmax_ge l m Hin). pose proof (Hle _ (lmax_In l Hne)). lra.
Qed.

(** A non-decreasing function commutes with both. *)
Lemma lmin_map_mono (f : R -> R) (l : list R) :
  (forall x y, x <= y -> f x <= f y) -> l <> [] ->
  lmin (map f l) = f (lmin l).
Proof.
  intros Hf Hne. apply lmin_unique.
  - apply in_map, lmin_In, Hne.
  - intros y Hy. apply in_map_iff in Hy as [x [<- Hx]].
    apply Hf, lmin_le, Hx.
Qed.

Lemma lmax_map_mono (f : R -> R) (l : list R) :
  (forall x y, x <= y -> f x <= f y) -> l <> [] ->
  lmax (map f l) = f (lmax l).
Proof.
  intros Hf Hne. apply lmax_unique.
  - apply in_map, lmax_In, Hne.
  - intros y Hy. apply in_map_iff in Hy as [x [<- Hx]].
    apply Hf, lmax_ge, Hx.
Qed.

Lemma column_length (j : nat) (X : array2) :
  List.length (column j X) = List.length X.
Proof. apply length_map. Qed.

Lemma column_nonempty (j : nat) (X : array2) : X <> [] -> column j X <> [].
Proof. destruct X; [congruence | discriminate]. Qed.

Lemma column_nth (j i : nat) (X : array2) :
  nth i (column j X) 0 = nth j (nth i X []) 0.
Proof.
  unfold column. revert i. induction X as [| r X IH]; intros [| i]; simpl; auto.
  - now destruct j.
  - now destruct j.
Qed.

End Extrema.

(** ** The Normalizer *)

Section Normalizer.

Import Mat Engine.

Local Open Scope R_scope.

Lemma rect_ncols (n : nat) (X : array2) : X <> [] -> rect n X -> ncols X = n.
Proof.
  destruct X as [| r X]; [congruence |].
  intros _ H. inversion H; subst. reflexivity.
Qed.

Lemma nth_map_seq (f : nat -> R) (n j : nat) :
  (j < n)%nat -> nth j (map f (seq 0 n)) 0 = f j.
Proof.
  intros Hj. rewrite (nth_indep _ 0 (f 0%nat)) by now rewrite length_map, length_seq.
  rewrite map_nth, seq_nth; auto.
Qed.

Lemma nth_scaled_row (row mn mx : list R) (j : nat) :
  List.length mn = List.length row -> List.length mx = List.length row ->
  (j < List.length row)%nat ->
  nth j (map (fun p => scale_value (fst (snd p)) (snd (snd p)) (fst p))
             (combine row (combine mn mx))) 0
  = scale_value (nth j mn 0) (nth j mx 0) (nth j row 0).
Proof.
  intros Hmn Hmx Hj.
  set (g := fun p : R * (R * R) => scale_value (fst (snd p)) (snd (snd p)) (fst p)).
  assert (Hlen : List.length (combine row (combine mn mx)) = List.length row).
  { rewrite !length_combine. lia. }
  rewrite (nth_indep _ 0 (g (0, (0, 0)))) by (rewrite length_map; lia).
  rewrite map_nth.
  rewrite combine_nth by (rewrite length_combine; lia).
  rewrite combine_nth by lia.
  reflexivity.
Qed.

Lemma scale_value_mono (mn mx : R) :
  mn <= mx -> forall x y, x <= y -> scale_value mn mx x <= scale_value mn mx y.
Proof.
  intros Hle x y Hxy. unfold scale_value.
  destruct (Req_dec_T mx mn); [lra |].
  unfold Rdiv. apply Rmult_le_compat_r; [| lra].
  left. apply Rinv_0_lt_compat. lra.
Qed.

Lemma scale_value_min (mn mx : R) : scale_value mn mx mn = 0.
Proof.
  unfold scale_value. destruct (Req_dec_T mx mn); [reflexivity |].
  unfold Rdiv. rewrite Rminus_diag. apply Rmult_0_l.
Qed.

Lemma scale_value_max (mn mx : R) : mx <> mn -> scale_value mn mx mx = 1.
Proof.
  intros H. unfold scale_value. destruct (Req_dec_T mx mn); [contradiction |].
  field. lra.
Qed.

Lemma scale_value_range (mn mx v : R) :
  mn <= v <= mx -> 0 <= scale_value mn mx v <= 1.
Proof.
  intros [H1 H2].
  rewrite <- (scale_value_min mn mx) at 1.
  split; [apply scale_value_mono; lra |].
  destruct (Req_dec_T mx mn) as [E | E].
  - unfold scale_value. destruct (Req_dec_T mx mn); [lra | contradiction].
  - rewrite <- (scale_value_max mn mx E). apply scale_value_mono; lra.
Qed.

(** What the Normalizer returns, column by column. *)
Lemma fit_transform_columns (n : nat) (X : array2) :
  X <> [] -> rect n X ->
  exists Xs,
    fit_transform X = Ok (X, Xs) /\
    List.length Xs = List.length X /\
    rect n Xs /\
    forall j, (j < n)%nat ->
      column j Xs =
        map (scale_value (lmin (column j X)) (lmax (column j X))) (column j X).
Proof.
  intros Hne Hrect.
  pose proof (rect_ncols n X Hne Hrect) as Hn.
  unfold fit_transform, min_axis0, max_axis0.
  destruct X as [| r0 X0] eqn:EX; [congruence |]. rewrite <- EX in *.
  simpl bind. rewrite Hn.
  eexists. split; [reflexivity |].
  split; [apply length_map |].
  split.
  - unfold rect in *. rewrite Forall_map.
    eapply Forall_impl; [| exact Hrect].
    intros row Hrow; simpl in *.
    rewrite length_map, !length_combine, !length_map, length_seq. lia.
  - intros j Hj. unfold column. rewrite !map_map. apply map_ext_in.
    intros row Hrow.
    unfold rect in Hrect. rewrite Forall_forall in Hrect.
    specialize (Hrect row Hrow).
    rewrite nth_scaled_row
      by (rewrite ?length_map, ?length_seq; lia).
    rewrite !nth_map_seq by exact Hj. reflexivity.
Qed.

(** C6.  For a feature matrix with at least one record, the Normalizer
    raises nothing and returns a new matrix of the same shape, the given
    matrix being left as it was.  In every column of the scaled matrix the
    least value is 0 and the greatest is 1, unless the column of the
    given matrix is constant ([max = min]): then every scaled value of
    the column is 0.  The engine calls it with nine columns. *)
Theorem normalizer_spec (n : nat) (X : array2) :
  X <> [] -> rect n X ->
  exists Xs,
    fit_transform X = Ok (X, Xs) /\
    List.length Xs = List.length X /\
    rect n Xs /\
    forall j, (j < n)%nat ->
      (lmax (column j X) <> lmin (column j X) ->
       lmin (column j Xs) = 0 /\ lmax (column j Xs) = 1) /\
      (lmax (column j X) = lmin (column j X) ->
       forall v, In v (column j Xs) -> v = 0).
Proof.
  intros Hne Hrect.
  destruct (fit_transform_columns n X Hne Hrect)
    as (Xs & Hfit & Hlen & Hshape & Hcols).
  exists Xs.
  split; [exact Hfit |]. split; [exact Hlen |]. split; [exact Hshape |].
  intros j Hj. rewrite (Hcols j Hj).
  pose proof (column_nonempty j X Hne) as Hcol.
  pose proof (scale_value_mono _ _ (lmin_le_lmax (column j X))) as Hmono.
  split.
  - intros Hdiff.
    rewrite lmin_map_mono, lmax_map_mono by assumption.
    split; [apply scale_value_min | apply scale_value_max, Hdiff].
  - intros Heq v Hv.
    apply in_map_iff in Hv as [x [<- _]].
    unfold scale_value. rewrite Heq.
    destruct (Req_dec_T _ _); [reflexivity | congruence].
Qed.

Lemma normalizer_spec_witness :
  exists Xs,
    fit_transform [Sample.alpha_features; Sample.beta_features]
      = Ok ([Sample.alpha_features; Sample.beta_features], Xs) /\
    List.length Xs = 2%nat /\
    rect 9 Xs /\
    forall j, (j < 9)%nat ->
      (lmax (column j [Sample.alpha_features; Sample.beta_features])
         <> lmin (column j [Sample.alpha_features; Sample.beta_features]) ->
       lmin (column j Xs) = 0 /\ lmax (column j Xs) = 1) /\
      (lmax (column j [Sample.alpha_features; Sample.beta_features])
         = lmin (column j [Sample.alpha_features; Sample.beta_features]) ->
       forall v, In v (column j Xs) -> v = 0).
Proof.
  apply (normalizer_spec 9 [Sample.alpha_features; Sample.beta_features]).
  - discriminate.
  - repeat constructor.
Defined.

End Normalizer.

(** ** The Ideal-Point scorer *)

Section IdealPoint.

Import Mat Engine.

Local Open Scope R_scope.

Lemma sum_squares_nonneg (l : list (R * R)) :
  0 <= sum (map (fun p => (fst p - snd p) * (fst p - snd p)) l).
Proof.
  induction l as [| p l IH]; simpl; [lra |].
  pose proof (Rle_0_sqr (fst p - snd p)) as H. unfold Rsqr in H. lra.
Qed.

Lemma dist_nonneg (x p : list R) : 0 <= dist x p.
Proof. apply sqrt_pos. Qed.

Lemma dist_same (x : list R) : dist x x = 0.
Proof.
  unfold dist.
  replace (sum _) with 0; [apply sqrt_0 |].
  induction x as [| a x IH]; simpl; [reflexivity |].
  rewrite <- IH. ring.
Qed.

Lemma dist_zero (x p : list R) :
  List.length x = List.length p -> dist x p = 0 -> x = p.
Proof.
  unfold dist. intros Hlen H.
  apply sqrt_eq_0 in H; [| apply sum_squares_nonneg].
  revert p Hlen H. induction x as [| a x IH]; intros [| b p] Hlen H;
    simpl in *; try discriminate; [reflexivity |].
  pose proof (sum_squares_nonneg (combine x p)) as Hs.
  pose proof (Rle_0_sqr (a - b)) as Hq. unfold Rsqr in Hq.
  assert (Hab : (a - b) * (a - b) = 0) by lra.
  apply Rmult_integral in Hab.
  f_equal; [lra |].
  apply IH; [lia | lra].
Qed.

Lemma topsis_score_zero : topsis_score 0 0 = NaN.
Proof.
  unfold topsis_score; simpl.
  destruct (Req_dec_T (0 + 0) 0) as [_ | H]; [| lra].
  destruct (Req_dec_T 0 0) as [_ | H]; [reflexivity | lra].
Qed.

Lemma topsis_score_finite (db dw : R) :
  0 <= db -> 0 <= dw -> db + dw <> 0 ->
  topsis_score db dw = Fin (dw / (db + dw)) /\ 0 <= dw / (db + dw) <= 1.
Proof.
  intros Hb Hw Hs. unfold topsis_score; simpl.
  destruct (Req_dec_T (db + dw) 0) as [E | _]; [contradiction |].
  split; [reflexivity |].
  assert (Hpos : 0 < db + dw) by lra.
  split.
  - apply Rmult_le_pos; [lra |]. left. apply Rinv_0_lt_compat, Hpos.
  - apply (Rmult_le_reg_r (db + dw)); [exact Hpos |].
    unfold Rdiv. rewrite Rmult_assoc, Rinv_l by lra. lra.
Qed.

Lemma set_nth_length (i : nat) (a : R) (v : list R) :
  List.length (set_nth i a v) = List.length v.
Proof.
  revert i. induction v as [| b v IH]; intros [| i]; simpl; auto.
Qed.

Lemma swap_at_length (bw : list R * list R) (i : nat) :
  List.length (fst (swap_at bw i)) = List.length (fst bw) /\
  List.length (snd (swap_at bw i)) = List.length (snd bw).
Proof. unfold swap_at; simpl. now rewrite !set_nth_length. Qed.

Lemma ideal_points_length (n : nat) (Xs : array2) :
  Xs <> [] -> rect n Xs ->
  exists best worst,
    ideal_points Xs = Ok (best, worst) /\
    List.length best = n /\ List.length worst = n.
Proof.
  intros Hne Hrect. pose proof (rect_ncols n Xs Hne Hrect) as Hn.
  unfold ideal_points, max_axis0, min_axis0.
  destruct Xs as [| r0 X0] eqn:EX; [congruence |]. rewrite <- EX in *.
  simpl bind. rewrite Hn.
  set (mx := map _ _). set (mn := map _ _).
  assert (Hmx : List.length mx = n) by (unfold mx; now rewrite length_map, length_seq).
  assert (Hmn : List.length mn = n) by (unfold mn; now rewrite length_map, length_seq).
  clearbody mx mn.
  do 2 eexists. split; [f_equal; apply surjective_pairing |].
  unfold cost_idx. cbn [fold_left].
  destruct (swap_at_length (swap_at (swap_at (mx, mn) 0) 1) 5) as [-> ->].
  destruct (swap_at_length (swap_at (mx, mn) 0) 1) as [-> ->].
  destruct (swap_at_length (mx, mn) 0) as [-> ->].
  auto.
Qed.

(** With nine columns: the minimum of the cost columns 0, 1 and 5 and
    the maximum of the others make the ideal-best point, and the other
    way round for the ideal-worst point. *)
Lemma ideal_points_nine (Xs : array2) :
  Xs <> [] -> rect 9 Xs ->
  ideal_points Xs =
    Ok (map (fun j => if existsb (Nat.eqb j) cost_idx
                      then lmin (column j Xs) else lmax (column j Xs))
            (seq 0 9),
        map (fun j => if existsb (Nat.eqb j) cost_idx
                      then lmax (column j Xs) else lmin (column j Xs))
            (seq 0 9)).
Proof.
  intros Hne Hrect. pose proof (rect_ncols 9 Xs Hne Hrect) as Hn.
  unfold ideal_points, max_axis0, min_axis0.
  destruct Xs as [| r0 X0] eqn:EX; [congruence |]. rewrite <- EX in *.
  simpl bind. rewrite Hn. reflexivity.
Qed.

Lemma map_combine_maps {A B C D : Type} (f : A -> B) (g : A -> C)
      (h : B * C -> D) (l : list A) :
  map h (combine (map f l) (map g l)) = map (fun a => h (f a, g a)) l.
Proof. induction l as [| a l IH]; simpl; [reflexivity | now rewrite IH]. Qed.

Lemma topsis_scores_eq (Xs : array2) (best worst : list R) :
  ideal_points Xs = Ok (best, worst) ->
  topsis_scores Xs =
    Ok (map (fun x => topsis_score (dist x best) (dist x worst)) Xs).
Proof.
  intros H. unfold topsis_scores. rewrite H. simpl.
  now rewrite map_combine_maps.
Qed.

(** With nine columns of which one is not constant, the two ideal
    points differ. *)
Lemma ideal_points_differ (Xs : array2) (j : nat) :
  Xs <> [] -> rect 9 Xs -> (j < 9)%nat ->
  lmax (column j Xs) <> lmin (column j Xs) ->
  exists best worst,
    ideal_points Xs = Ok (best, worst) /\
    List.length best = 9%nat /\ List.length worst = 9%nat /\
    best <> worst.
Proof.
  intros Hne Hrect Hj Hcol.
  pose proof (ideal_points_nine Xs Hne Hrect) as Hip.
  set (best := map _ (seq 0 9)) in Hip.
  set (worst := map _ (seq 0 9)) in Hip.
  exists best, worst.
  split; [exact Hip |].
  split; [unfold best; now rewrite length_map, length_seq |].
  split; [unfold worst; now rewrite length_map, length_seq |].
  intros E. apply (f_equal (fun l => nth j l 0)) in E.
  unfold best, worst in E. rewrite !nth_map_seq in E by exact Hj.
  destruct (existsb _ _); congruence.
Qed.

(** The score of one record when the two ideal points differ. *)
Lemma topsis_record_score (x best worst : list R) :
  List.length x = List.length best -> List.length x = List.length worst ->
  best <> worst ->
  exists s,
    topsis_score (dist x best) (dist x worst) = Fin s /\ 0 <= s <= 1 /\
    (x = best -> s = 1) /\ (x = worst -> s = 0).
Proof.
  intros Hb Hw Hdiff.
  pose proof (dist_nonneg x best) as Hdb.
  pose proof (dist_nonneg x worst) as Hdw.
  assert (Hsum : dist x best + dist x worst <> 0).
  { intros E. apply Hdiff.
    rewrite <- (dist_zero x best Hb) by lra.
    apply (dist_zero x worst Hw). lra. }
  destruct (topsis_score_finite _ _ Hdb Hdw Hsum) as [Hs Hrange].
  exists (dist x worst / (dist x best + dist x worst)).
  split; [exact Hs |]. split; [exact Hrange |].
  split.
  - intros ->. rewrite dist_same in *. field. lra.
  - intros ->. rewrite dist_same. unfold Rdiv. apply Rmult_0_l.
Qed.

End IdealPoint.

(** ** The engine on a single record *)

Section SingleRecord.

Import Mat Engine.

Local Open Scope R_scope.

Lemma features_alpha :
  features Sample.alpha =
    Ok [CInt 100; CInt 100; CFloat (Fin 1.5); CInt 2; CInt 3; CInt 10;
        CInt 4; CInt 50; CInt 5000].
Proof. reflexivity. Qed.

(** A one-record input: every column is constant, so the scaled matrix
    is zero throughout. *)
Lemma prepare_alpha :
  prepare [Sample.alpha] = Ok ([Sample.alpha_features], [Sample.zero_row]).
Proof.
  unfold prepare. cbn [mapM]. rewrite features_alpha. cbn [bind].
  unfold np_array. cbn [mapM to_float bind check_array finite].
  unfold fit_transform. simpl.
  rewrite !scale_value_min. reflexivity.
Qed.

Lemma ideal_points_zero_row :
  ideal_points [Sample.zero_row] = Ok (Sample.zero_row, Sample.zero_row).
Proof. reflexivity. Qed.

Lemma topsis_scores_zero_row : topsis_scores [Sample.zero_row] = Ok [NaN].
Proof.
  rewrite (topsis_scores_eq _ _ _ ideal_points_zero_row). simpl.
  now rewrite dist_same, topsis_score_zero.
Qed.

End SingleRecord.

(** ** The Score Combiner *)

Section Combiner.

Import Mat Engine.

Local Open Scope R_scope.

Lemma min2_fin (a b : R) : Np.min2 (Fin a) (Fin b) = Fin (Rmin a b).
Proof.
  unfold Np.min2, Rmin; simpl.
  destruct (Rlt_dec b a), (Rle_dec a b); try reflexivity; f_equal; lra.
Qed.

Lemma max2_fin (a b : R) : Np.max2 (Fin a) (Fin b) = Fin (Rmax a b).
Proof.
  unfold Np.max2, Rmax; simpl.
  destruct (Rlt_dec a b), (Rle_dec a b); try reflexivity; f_equal; lra.
Qed.

Lemma fold_min2_fin (l : list R) (a : R) :
  fold_left Np.min2 (map Fin l) (Fin a) = Fin (fold_left Rmin l a).
Proof.
  revert a. induction l as [| b l IH]; intros a; simpl; [reflexivity |].
  now rewrite min2_fin, IH.
Qed.

Lemma fold_max2_fin (l : list R) (a : R) :
  fold_left Np.max2 (map Fin l) (Fin a) = Fin (fold_left Rmax l a).
Proof.
  revert a. induction l as [| b l IH]; intros a; simpl; [reflexivity |].
  now rewrite max2_fin, IH.
Qed.

Lemma amin_fin (l : list R) :
  l <> [] -> Np.amin (map Fin l) = Ok (Fin (lmin l)).
Proof.
  destruct l as [| a l]; [congruence |]; intros _; simpl.
  now rewrite fold_min2_fin.
Qed.

Lemma amax_fin (l : list R) :
  l <> [] -> Np.amax (map Fin l) = Ok (Fin (lmax l)).
Proof.
  destruct l as [| a l]; [congruence |]; intros _; simpl.
  now rewrite fold_max2_fin.
Qed.

Lemma normalize_fin (l : list R) :
  l <> [] -> normalize (map Fin l) = Ok (map Fin (map (rescale l) l)).
Proof.
  intros Hne. unfold normalize.
  rewrite (amin_fin l Hne), (amax_fin l Hne). cbn [bind]. apply f_equal.
  rewrite !map_map. apply map_ext. intros x. unfold rescale. simpl.
  destruct (Req_dec_T (lmax l + - lmin l + 1e-9) 0) as [E | _].
  - pose proof (lmin_le_lmax l). lra.
  - reflexivity.
Qed.

Lemma rescale_range (l : list R) (x : R) :
  In x l -> 0 <= rescale l x <= 1.
Proof.
  intros Hx. unfold rescale.
  pose proof (lmin_le l x Hx). pose proof (lmax_ge l x Hx).
  assert (Hpos : 0 < lmax l - lmin l + 1e-9) by lra.
  split.
  - apply Rmult_le_pos; [lra |]. left. apply Rinv_0_lt_compat, Hpos.
  - apply (Rmult_le_reg_r (lmax l - lmin l + 1e-9)); [exact Hpos |].
    unfold Rdiv. rewrite Rmult_assoc, Rinv_l by lra. lra.
Qed.

(** One NaN in the array: every normalised entry is NaN. *)
Lemma min2_nan_l (y : npfloat) : Np.min2 NaN y = NaN.
Proof. reflexivity. Qed.

Lemma max2_nan_l (y : npfloat) : Np.max2 NaN y = NaN.
Proof. reflexivity. Qed.

Lemma min2_nan_r (x : npfloat) : Np.min2 x NaN = NaN.
Proof. unfold Np.min2; simpl. now rewrite orb_true_r. Qed.

Lemma max2_nan_r (x : npfloat) : Np.max2 x NaN = NaN.
Proof. unfold Np.max2; simpl. now rewrite orb_true_r. Qed.

Lemma fold_min2_nan (l : list npfloat) : fold_left Np.min2 l NaN = NaN.
Proof. induction l; simpl; auto. Qed.

Lemma fold_max2_nan (l : list npfloat) : fold_left Np.max2 l NaN = NaN.
Proof. induction l; simpl; auto. Qed.

Lemma fold_min2_has_nan (l : list npfloat) (a : npfloat) :
  In NaN l -> fold_left Np.min2 l a = NaN.
Proof.
  revert a. induction l as [| b l IH]; intros a; simpl; [tauto |].
  intros [-> | H]; [| auto].
  rewrite min2_nan_r. apply fold_min2_nan.
Qed.

Lemma fold_max2_has_nan (l : list npfloat) (a : npfloat) :
  In NaN l -> fold_left Np.max2 l a = NaN.
Proof.
  revert a. induction l as [| b l IH]; intros a; simpl; [tauto |].
  intros [-> | H]; [| auto].
  rewrite max2_nan_r. apply fold_max2_nan.
Qed.

Lemma sub_nan_r (x : npfloat) : Np.sub x NaN = NaN.
Proof. now destruct x. Qed.

Lemma add_nan_r (x : npfloat) : Np.add x NaN = NaN.
Proof. now destruct x. Qed.

Lemma normalize_nan (arr : list npfloat) :
  In NaN arr -> normalize arr = Ok (map (fun _ => NaN) arr).
Proof.
  intros H. unfold normalize.
  destruct arr as [| a arr]; [destruct H |].
  assert (Hmin : Np.amin (a :: arr) = Ok NaN).
  { simpl. destruct H as [-> | H];
      [apply f_equal, fold_min2_nan | apply f_equal, fold_min2_has_nan, H]. }
  rewrite Hmin. cbn [bind].
  destruct (Np.amax (a :: arr)) as [hi |] eqn:Hmax; [| discriminate].
  cbn [bind]. f_equal. apply map_ext. intros x.
  now rewrite sub_nan_r.
Qed.

Lemma final_score_length (a b c : list npfloat) :
  List.length b = List.length a -> List.length c = List.length a ->
  List.length (final_score a b c) = List.length a.
Proof.
  intros Hb Hc. unfold final_score.
  rewrite length_map, !length_combine. lia.
Qed.

Lemma final_score_fin (a b c : list R) :
  final_score (map Fin a) (map Fin b) (map Fin c) =
    map (fun p => Fin ((fst (fst p) + snd (fst p) + snd p) / 3))
        (combine (combine a b) c).
Proof.
  unfold final_score.
  revert b c. induction a as [| x a IH]; intros [| y b] [| z c]; simpl;
    try reflexivity.
  rewrite IH. f_equal.
  destruct (Req_dec_T 3 0); [lra | reflexivity].
Qed.

Lemma final_score_nan (a c : list npfloat) (n : nat) :
  List.length a = n -> List.length c = n ->
  final_score a (repeat NaN n) c = repeat NaN n.
Proof.
  unfold final_score. revert a c.
  induction n as [| n IH]; intros [| x a] [| z c] Ha Hc; simpl in *;
    try discriminate; [reflexivity |].
  rewrite IH by lia. f_equal.
  now rewrite add_nan_r.
Qed.

End Combiner.

(** ** The Ranker's sort *)

Section SortFacts.

Import PySort.

Context {A : Type} (key : A -> npfloat).

Local Open Scope R_scope.

Lemma insert_perm (x : A) (s : list A) : Permutation (x :: s) (insert key x s).
Proof.
  induction s as [| y s IH]; simpl; [reflexivity |].
  destruct (Np.ltb (key y) (key x)); [| reflexivity].
  rewrite perm_swap. now constructor.
Qed.

Lemma sort_asc_perm (l : list A) : Permutation l (sort_asc key l).
Proof.
  induction l as [| x l IH]; simpl; [constructor |].
  rewrite <- insert_perm. now constructor.
Qed.

Lemma sorted_reverse_perm (l : list A) :
  Permutation l (sorted_reverse key l).
Proof.
  unfold sorted_reverse.
  rewrite <- Permutation_rev, <- sort_asc_perm. apply Permutation_rev.
Qed.

(** Equal keys are not below one another. *)
Lemma ltb_eqb (x y k : npfloat) :
  Np.ltb y x = true -> Np.eqb x k = true -> Np.eqb y k = false.
Proof.
  destruct x as [a | | |], y as [b | | |], k as [c | | |]; simpl;
    try discriminate; try reflexivity.
  destruct (Rlt_dec b a), (Req_dec_T a c), (Req_dec_T b c);
    try discriminate; try reflexivity.
  lra.
Qed.

Lemma insert_with_key (k : npfloat) (x : A) (s : list A) :
  with_key key k (insert key x s) = with_key key k (x :: s).
Proof.
  unfold with_key.
  induction s as [| y s IH]; simpl; [reflexivity |].
  destruct (Np.ltb (key y) (key x)) eqn:Hlt; [| reflexivity].
  simpl. rewrite IH. simpl.
  destruct (Np.eqb (key x) k) eqn:Hx; [| reflexivity].
  now rewrite (ltb_eqb _ _ _ Hlt Hx).
Qed.

Lemma sort_asc_with_key (k : npfloat) (l : list A) :
  with_key key k (sort_asc key l) = with_key key k l.
Proof.
  induction l as [| x l IH]; simpl; [reflexivity |].
  rewrite insert_with_key. unfold with_key in *. simpl. now rewrite IH.
Qed.

Lemma with_key_rev (k : npfloat) (l : list A) :
  with_key key k (rev l) = rev (with_key key k l).
Proof.
  unfold with_key. induction l as [| x l IH]; simpl; [reflexivity |].
  rewrite filter_app, IH. simpl.
  destruct (Np.eqb (key x) k); simpl; [reflexivity | apply app_nil_r].
Qed.

(** Stability: the records of one score keep their order. *)
Lemma sorted_reverse_stable (k : npfloat) (l : list A) :
  with_key key k (sorted_reverse key l) = with_key key k l.
Proof.
  unfold sorted_reverse.
  now rewrite with_key_rev, sort_asc_with_key, with_key_rev, rev_involutive.
Qed.

Lemma key_le_trans (x y z : A) :
  key_le key x y -> key_le key y z -> key_le key x z.
Proof.
  unfold key_le.
  destruct (key x), (key y), (key z); try tauto. lra.
Qed.

Lemma not_ltb_key_le (x y : A) :
  finite_key key x -> finite_key key y ->
  Np.ltb (key y) (key x) = false -> key_le key x y.
Proof.
  intros [a Ha] [b Hb]. unfold key_le. rewrite Ha, Hb. simpl.
  destruct (Rlt_dec b a); [discriminate | lra].
Qed.

Lemma ltb_key_le (x y : A) :
  Np.ltb (key y) (key x) = true -> finite_key key x -> finite_key key y ->
  key_le key y x.
Proof.
  intros H [a Ha] [b Hb]. unfold key_le. rewrite Ha, Hb in *. simpl in H.
  destruct (Rlt_dec b a); [lra | discriminate].
Qed.

Lemma insert_sorted (x : A) (s : list A) :
  finite_key key x -> Forall (finite_key key) s ->
  StronglySorted (key_le key) s ->
  StronglySorted (key_le key) (insert key x s).
Proof.
  intros Hx Hfin Hs. induction Hs as [| y s Hs IH Hy]; simpl.
  - repeat constructor.
  - inversion Hfin as [| ? ? Hfy Hfs]; subst.
    destruct (Np.ltb (key y) (key x)) eqn:Hlt.
    + constructor; [auto |].
      rewrite <- (insert_perm x s). constructor; [| exact Hy].
      now apply ltb_key_le.
    + pose proof (not_ltb_key_le x y Hx Hfy Hlt) as Hxy.
      constructor; [now constructor |].
      constructor; [exact Hxy |].
      eapply Forall_impl; [| exact Hy].
      intros z Hz. eapply key_le_trans; eassumption.
Qed.

Lemma sort_asc_sorted (l : list A) :
  Forall (finite_key key) l -> StronglySorted (key_le key) (sort_asc key l).
Proof.
  induction 1 as [| x l Hx Hl IH]; simpl; [constructor |].
  apply insert_sorted; auto.
  now rewrite <- sort_asc_perm.
Qed.

Lemma StronglySorted_snoc (R : A -> A -> Prop) (l : list A) (x : A) :
  StronglySorted R l -> Forall (fun y => R y x) l ->
  StronglySorted R (l ++ [x]).
Proof.
  induction 1 as [| y l Hs IH Hy]; intros Hx; simpl.
  - repeat constructor.
  - inversion Hx; subst. constructor; [auto |].
    apply Forall_app. split; [exact Hy | now constructor].
Qed.

Lemma StronglySorted_rev (R : A -> A -> Prop) (l : list A) :
  StronglySorted R l -> StronglySorted (fun x y => R y x) (rev l).
Proof.
  induction 1 as [| y l Hs IH Hy]; simpl; [constructor |].
  apply StronglySorted_snoc; [exact IH |].
  now apply Forall_rev.
Qed.

(** With finite keys the result is in non-increasing key order. *)
Lemma sorted_reverse_sorted (l : list A) :
  Forall (finite_key key) l ->
  StronglySorted (key_ge key) (sorted_reverse key l).
Proof.
  intros H. unfold sorted_reverse, key_ge.
  apply (StronglySorted_rev (key_le key)), sort_asc_sorted.
  now apply Forall_rev.
Qed.

End SortFacts.

(** ** From records to the feature matrix *)

Section FeatureMatrix.

Import Mat Engine.

Local Open Scope R_scope.

Lemma features_inv (row : record) (fv : list cell) :
  features row = Ok fv ->
  exists c2 c3 c4 c5 c6 c7 c8 c9 c10,
    nth_error row 2 = Some c2 /\ nth_error row 3 = Some c3 /\
    nth_error row 4 = Some c4 /\ nth_error row 5 = Some c5 /\
    nth_error row 6 = Some c6 /\ nth_error row 7 = Some c7 /\
    nth_error row 8 = Some c8 /\ nth_error row 9 = Some c9 /\
    nth_error row 10 = Some c10 /\
    fv = [c2; if is_zero_dec c3 then c2 else c3; c4; c5; c6; c7; c8; c9; c10].
Proof.
  unfold features, getitem. intros H.
  destruct (nth_error row 2) as [c2 |] eqn:E2; [| discriminate].
  destruct (nth_error row 3) as [c3 |] eqn:E3; [| discriminate].
  cbn [bind] in H.
  replace (if is_zero_dec c3 then Ok c2 else Ok c3)
    with (Ok (if is_zero_dec c3 then c2 else c3)) in H
    by now destruct (is_zero_dec c3).
  cbn [bind] in H.
  destruct (nth_error row 4) as [c4 |]; [| discriminate].
  destruct (nth_error row 5) as [c5 |]; [| discriminate].
  destruct (nth_error row 6) as [c6 |]; [| discriminate].
  destruct (nth_error row 7) as [c7 |]; [| discriminate].
  destruct (nth_error row 8) as [c8 |]; [| discriminate].
  destruct (nth_error row 9) as [c9 |]; [| discriminate].
  destruct (nth_error row 10) as [c10 |]; [| discriminate].
  cbn [bind] in H. injection H as <-.
  exists c2, c3, c4, c5, c6, c7, c8, c9, c10.
  repeat (split; [reflexivity |]). reflexivity.
Qed.

Lemma features_length (row : record) (fv : list cell) :
  features row = Ok fv -> List.length fv = 9%nat.
Proof.
  intros H. apply features_inv in H.
  destruct H as (c2 & c3 & c4 & c5 & c6 & c7 & c8 & c9 & c10 & H).
  destruct H as (_ & _ & _ & _ & _ & _ & _ & _ & _ & ->). reflexivity.
Qed.

Lemma finite_inv (x : npfloat) (v : R) : finite x = Ok v -> x = Fin v.
Proof. destruct x; simpl; congruence. Qed.

Lemma to_float_finite (fv : list cell) (fl : list npfloat) (x : list R) :
  mapM to_float fv = Ok fl -> mapM finite fl = Ok x ->
  Forall2 (fun c v => to_float c = Ok (Fin v)) fv x.
Proof.
  intros H1 H2. apply mapM_Forall2 in H1. apply mapM_Forall2 in H2.
  revert x H2. induction H1 as [| c f fv fl Hc H1 IH]; intros x H2;
    inversion H2 as [| ? v ? x' Hv H2']; subst; constructor.
  - now rewrite Hc, (finite_inv _ _ Hv).
  - auto.
Qed.

Lemma fit_transform_input (X X' Xs : array2) :
  fit_transform X = Ok (X', Xs) -> X' = X /\ X <> [].
Proof.
  unfold fit_transform, min_axis0, max_axis0.
  destruct X; [discriminate |]. simpl. intros H.
  injection H as <- _. split; [reflexivity | discriminate].
Qed.

(** The feature matrix has one row of nine finite values per record. *)
Lemma prepare_inv (matrix : list record) (X Xs : array2) :
  prepare matrix = Ok (X, Xs) ->
  Forall2 row_of matrix X /\ rect 9 X /\ X <> [] /\
  fit_transform X = Ok (X, Xs).
Proof.
  unfold prepare, np_array. intros H.
  destruct (mapM features matrix) as [nd |] eqn:E1; [| discriminate].
  cbn [bind] in H.
  destruct (mapM (mapM to_float) nd) as [X0 |] eqn:E2; [| discriminate].
  cbn [bind] in H.
  destruct (check_array X0) as [X1 |] eqn:E3; [| discriminate].
  cbn [bind] in H.
  destruct (fit_transform_input _ _ _ H) as [<- Hne].
  assert (E3' : mapM (mapM finite) X0 = Ok X).
  { unfold check_array in E3. destruct X0; [discriminate | exact E3]. }
  apply mapM_Forall2 in E1, E2, E3'.
  assert (Hrows : Forall2 row_of matrix X).
  { clear H Hne E3. revert X0 X E2 E3'.
    induction E1 as [| row fv matrix nd Hrow E1 IH]; intros X0 X E2 E3;
      inversion E2; subst; inversion E3; subst; constructor.
    - exists fv. split; [exact Hrow |]. eapply to_float_finite; eassumption.
    - eapply IH; eassumption. }
  repeat split; auto.
  unfold rect. clear H Hne E1 E2 E3 E3'.
  induction Hrows as [| row x matrix X [fv [Hfv Hx]] _ IH]; constructor; auto.
  apply Forall2_length in Hx. rewrite <- Hx. now apply (features_length row).
Qed.

Lemma prepare_length (matrix : list record) (X Xs : array2) :
  prepare matrix = Ok (X, Xs) ->
  List.length X = List.length matrix /\ List.length Xs = List.length matrix.
Proof.
  intros H. destruct (prepare_inv _ _ _ H) as (Hrows & Hrect & Hne & Hfit).
  apply Forall2_length in Hrows.
  destruct (fit_transform_columns 9 X Hne Hrect) as (Xs' & E & Hlen & _).
  rewrite Hfit in E. injection E as <-. split; congruence.
Qed.

Lemma Forall2_nth_error {A B : Type} (P : A -> B -> Prop)
      (l : list A) (l' : list B) (i : nat) (a : A) :
  Forall2 P l l' -> nth_error l i = Some a ->
  exists b, nth_error l' i = Some b /\ P a b.
Proof.
  intros H. revert i. induction H as [| x y l l' Hxy H IH]; intros [| i] Hi;
    simpl in *; try discriminate.
  - injection Hi as <-. eauto.
  - auto.
Qed.

Lemma nth_error_combine {A B : Type} (l : list A) (l' : list B) (i : nat)
      (a : A) (b : B) :
  nth_error l i = Some a -> nth_error l' i = Some b ->
  nth_error (combine l l') i = Some (a, b).
Proof.
  revert l' i. induction l as [| x l IH]; intros [| y l'] [| i] Ha Hb;
    simpl in *; try discriminate.
  - congruence.
  - auto.
Qed.

End FeatureMatrix.

(** ** The Ideal-Point scorer: its range and its two ideal points *)

Section IdealPointSpec.

Import Mat Engine.

Local Open Scope R_scope.

(** C7, amended.  Take a scaled matrix of nine columns in which some
    column is not constant.  The ideal-best point holds the column
    minimum in the cost columns 0, 1 and 5 and the column maximum in the
    benefit columns, the ideal-worst point the other way round, and the
    two points differ.  Every record then scores a finite
    [d_worst / (d_best + d_worst)] between 0 and 1; a record equal to the
    ideal-best point scores 1 and a record equal to the ideal-worst
    point scores 0. *)
Theorem topsis_spec (Xs : array2) :
  Xs <> [] -> rect 9 Xs ->
  (exists j, (j < 9)%nat /\ lmax (column j Xs) <> lmin (column j Xs)) ->
  exists best worst ss,
    ideal_points Xs = Ok (best, worst) /\
    topsis_scores Xs = Ok ss /\
    (forall j, In j cost_idx ->
       nth j best 0 = lmin (column j Xs) /\
       nth j worst 0 = lmax (column j Xs)) /\
    (forall j, In j benefit_idx ->
       nth j best 0 = lmax (column j Xs) /\
       nth j worst 0 = lmin (column j Xs)) /\
    best <> worst /\
    forall i x, nth_error Xs i = Some x ->
      exists s, nth_error ss i = Some (Fin s) /\ 0 <= s <= 1 /\
                (x = best -> s = 1) /\ (x = worst -> s = 0).
Proof.
  intros Hne Hrect [j [Hj Hcol]].
  destruct (ideal_points_differ Xs j Hne Hrect Hj Hcol)
    as (best & worst & Hip & Hlb & Hlw & Hdiff).
  exists best, worst. eexists.
  split; [exact Hip |].
  split; [exact (topsis_scores_eq _ _ _ Hip) |].
  rewrite (ideal_points_nine Xs Hne Hrect) in Hip.
  injection Hip as <- <-.
  split.
  { intros k [<- | [<- | [<- | []]]]; split; reflexivity. }
  split.
  { intros k [<- | [<- | [<- | [<- | [<- | [<- | []]]]]]]; split; reflexivity. }
  split; [exact Hdiff |].
  intros i x Hx.
  assert (Hlen : List.length x = 9%nat).
  { unfold rect in Hrect. rewrite Forall_forall in Hrect.
    eapply Hrect, nth_error_In, Hx. }
  destruct (topsis_record_score x _ _ (eq_trans Hlen (eq_sym Hlb))
              (eq_trans Hlen (eq_sym Hlw)) Hdiff)
    as (s & Hs & Hrange & Hbest & Hworst).
  exists s.
  split; [rewrite nth_error_map, Hx; simpl; now rewrite Hs |].
  auto.
Qed.

Lemma topsis_spec_witness :
  exists best worst ss,
    ideal_points [Sample.zero_row; Sample.one_row] = Ok (best, worst) /\
    topsis_scores [Sample.zero_row; Sample.one_row] = Ok ss /\
    (forall j, In j cost_idx ->
       nth j best 0 = lmin (column j [Sample.zero_row; Sample.one_row]) /\
       nth j worst 0 = lmax (column j [Sample.zero_row; Sample.one_row])) /\
    (forall j, In j benefit_idx ->
       nth j best 0 = lmax (column j [Sample.zero_row; Sample.one_row]) /\
       nth j worst 0 = lmin (column j [Sample.zero_row; Sample.one_row])) /\
    best <> worst /\
    forall i x, nth_error [Sample.zero_row; Sample.one_row] i = Some x ->
      exists s, nth_error ss i = Some (Fin s) /\ 0 <= s <= 1 /\
                (x = best -> s = 1) /\ (x = worst -> s = 0).
Proof.
  apply (topsis_spec [Sample.zero_row; Sample.one_row]).
  - discriminate.
  - repeat constructor.
  - exists 0%nat. split; [lia |]. simpl.
    unfold Rmax, Rmin. destruct (Rle_dec 0 1); lra.
Defined.

(** C7 as stated fails on the scaled matrix of a one-record input: the
    record is the ideal-best point and the ideal-worst point at once, both
    distances are 0, and its score is NaN: not 1, not 0, not in [0, 1]. *)
Lemma topsis_degenerate_counterexample :
  rect 9 [Sample.zero_row] /\
  nth_error [Sample.zero_row] 0 = Some Sample.zero_row /\
  ideal_points [Sample.zero_row] = Ok (Sample.zero_row, Sample.zero_row) /\
  topsis_scores [Sample.zero_row] = Ok [NaN] /\
  ~ (exists s : R, nth_error [@NaN R] 0 = Some (Fin s) /\ 0 <= s <= 1).
Proof.
  split; [repeat constructor |].
  split; [reflexivity |].
  split; [exact ideal_points_zero_row |].
  split; [exact topsis_scores_zero_row |].
  intros [s [H _]]. discriminate.
Qed.

(** C2.  When both distances of a record are zero, the quotient is
    evaluated as it stands, [0 / 0]: the score is NaN and not 0.5.
    Nothing is raised.  A one-record input is such a case. *)
Theorem topsis_zero_distances_give_nan :
  topsis_score 0 0 = NaN /\
  topsis_score 0 0 <> Fin 0.5 /\
  prepare [Sample.alpha] = Ok ([Sample.alpha_features], [Sample.zero_row]) /\
  dist Sample.zero_row Sample.zero_row = 0 /\
  topsis_scores [Sample.zero_row] = Ok [NaN].
Proof.
  split; [exact topsis_score_zero |].
  split; [rewrite topsis_score_zero; discriminate |].
  split; [exact prepare_alpha |].
  split; [apply dist_same | exact topsis_scores_zero_row].
Qed.

End IdealPointSpec.

(** ** The engine on inputs without two distinct records *)

Section Degenerate.

Import Mat Engine.

Local Open Scope R_scope.

Variable pca_project : array2 -> list R -> R.

Lemma scores_alpha : scores pca_project [Sample.alpha] = Ok [NaN].
Proof.
  unfold scores. rewrite prepare_alpha. cbn [bind fst snd].
  rewrite topsis_scores_zero_row. cbn [bind].
  rewrite normalize_fin by discriminate. cbn [bind].
  rewrite (normalize_nan [NaN]) by (left; reflexivity). cbn [bind].
  rewrite normalize_fin by discriminate. cbn [bind].
  reflexivity.
Qed.

Lemma analyze_alpha :
  analyze pca_project [Sample.alpha] = Ok [Sample.alpha ++ [CFloat NaN]].
Proof. unfold analyze. rewrite scores_alpha. reflexivity. Qed.

Lemma scrape_rows_alpha :
  scrape_rows (Some [Sample.header_text; Sample.alpha_text]) = [Sample.alpha].
Proof. reflexivity. Qed.

Lemma scrape_rows_no_data (header : list string) :
  scrape_rows None = [] /\ scrape_rows (Some []) = [] /\
  scrape_rows (Some [header]) = [].
Proof.
  repeat split. unfold scrape_rows; simpl. now destruct header.
Qed.

(** The header row is dropped: of a table whose rows all have cells,
    every row but the first becomes a record. *)
Lemma scrape_rows_length (rows : list (list string)) :
  Forall (fun cols_text => cols_text <> []) rows ->
  List.length (scrape_rows (Some rows)) = (List.length rows - 1)%nat.
Proof.
  intros H. unfold scrape_rows.
  set (m := flat_map _ rows).
  assert (E : List.length m = List.length rows).
  { subst m. induction H as [| r rows Hr _ IH]; simpl; [reflexivity |].
    destruct r; [congruence |]. simpl. now rewrite IH. }
  rewrite <- E.
  clearbody m. destruct m as [| a [| b m]]; reflexivity.
Qed.

Lemma analyze_empty : analyze pca_project [] = Raise ValueError.
Proof. reflexivity. Qed.

End Degenerate.

(** C1.  On a table with a header and one data row the engine returns
    the one record, and its composite score is NaN, which is not in
    [0, 1].  The Ideal-Point score of the record is the unguarded
    [0 / 0] of the scorer, and the NaN goes through the Score Combiner,
    whatever the principal-axis scores are. *)
Lemma single_record_composite_is_nan :
  (forall pca_project : Mat.array2 -> list R -> R,
     Engine.pipeline pca_project
       (Some [Sample.header_text; Sample.alpha_text])
     = Ok [Sample.alpha ++ [CFloat NaN]]) /\
  Engine.key (Sample.alpha ++ [CFloat NaN]) = NaN /\
  ~ Engine.unit_score (Engine.key (Sample.alpha ++ [CFloat NaN])).
Proof.
  split.
  - intros pca_project.
    unfold Engine.pipeline. rewrite scrape_rows_alpha. apply analyze_alpha.
  - split; [reflexivity |].
    intros [s [H _]]. discriminate.
Qed.

(** C4.  From a table with no row, with only a header row, or from a
    page with no table, [scrape] makes the empty record sequence; the
    engine then raises [ValueError] on it instead of returning an empty
    ranking. *)
Theorem pipeline_without_data_raises
        (pca_project : Mat.array2 -> list R -> R) (header : list string) :
  Engine.scrape_rows (Some [header]) = [] /\
  Engine.pipeline pca_project (Some [header]) = Raise ValueError /\
  Engine.pipeline pca_project (Some []) = Raise ValueError /\
  Engine.pipeline pca_project None = Raise ValueError.
Proof.
  destruct (scrape_rows_no_data header) as (H1 & H2 & H3).
  unfold Engine.pipeline. rewrite H1, H2, H3.
  repeat split; apply analyze_empty.
Qed.

(** C3.  Column 2, the daily change, is listed among the benefit
    columns of the Ideal-Point scorer, and its weight in the
    Weighted-Penalty scorer is -0.2.  The weights of the three cost
    columns are negative and those of the other five benefit columns
    are positive. *)
Theorem weight_of_change_pct_is_negative :
  In 2%nat Engine.benefit_idx /\
  nth 2 Engine.weights 0%R = (-0.2)%R /\
  (nth 2 Engine.weights 0 < 0)%R /\
  (forall j, In j Engine.cost_idx -> (nth j Engine.weights 0 < 0)%R) /\
  (forall j, In j Engine.benefit_idx -> j <> 2%nat ->
             (0 < nth j Engine.weights 0)%R).
Proof.
  split; [now left |].
  split; [reflexivity |].
  split; [simpl; lra |].
  split.
  - intros j [<- | [<- | [<- | []]]]; simpl; lra.
  - intros j [<- | [<- | [<- | [<- | [<- | [<- | []]]]]]] Hj;
      try congruence; simpl; lra.
Qed.

(** ** The score vectors of a run *)

Section Run.

Import Mat Engine.

Local Open Scope R_scope.

Variable pca_project : array2 -> list R -> R.

Lemma normalize_length (arr arr' : list npfloat) :
  normalize arr = Ok arr' -> List.length arr' = List.length arr.
Proof.
  unfold normalize. intros H.
  destruct (Np.amin arr); [| discriminate].
  destruct (Np.amax arr); [| discriminate].
  cbn [bind] in H. injection H as <-. apply length_map.
Qed.

Lemma topsis_scores_length (Xs : array2) (ss : list npfloat) :
  topsis_scores Xs = Ok ss -> List.length ss = List.length Xs.
Proof.
  unfold topsis_scores. intros H.
  destruct (ideal_points Xs); [| discriminate].
  cbn [bind] in H. injection H as <-.
  rewrite length_map, length_combine, !length_map. lia.
Qed.

Lemma weighted_scores_length (X Xs : array2) :
  List.length Xs = List.length X ->
  List.length (weighted_scores X Xs) = List.length X.
Proof.
  intros H. unfold weighted_scores, column.
  rewrite length_map, length_combine, !length_map. lia.
Qed.

Lemma weighted_scores_nth (X Xs : array2) (i : nat) (x xs : list R) :
  nth_error X i = Some x -> nth_error Xs i = Some xs ->
  nth_error (weighted_scores X Xs) i =
    Some (dot xs weights - tanh (nth 5 x 0 / 50)).
Proof.
  intros Hx Hxs. unfold weighted_scores, column.
  rewrite (map_nth_error _ i _
             (nth_error_combine _ _ i _ _
                (map_nth_error (fun x => dot x weights) i Xs Hxs)
                (map_nth_error (fun pe => tanh (pe / 50)) i _
                   (map_nth_error (fun row => nth 5 row 0) i X Hx)))).
  reflexivity.
Qed.

(** How [scores] goes on once the two matrices are there. *)
Lemma scores_unfold (matrix : list record) (X Xs : array2) :
  prepare matrix = Ok (X, Xs) ->
  scores pca_project matrix =
    (topsis <- topsis_scores Xs ;;
     pca_norm <- normalize (map Fin (pca_scores pca_project Xs)) ;;
     topsis_norm <- normalize topsis ;;
     weighted_norm <- normalize (map Fin (weighted_scores X Xs)) ;;
     Ok (final_score pca_norm topsis_norm weighted_norm)).
Proof. intros H. unfold scores. now rewrite H. Qed.

(** One composite score per record. *)
Lemma scores_length (matrix : list record) (final : list npfloat) :
  scores pca_project matrix = Ok final ->
  List.length final = List.length matrix.
Proof.
  intros H. unfold scores in H.
  destruct (prepare matrix) as [[X Xs] |] eqn:Hp; [| discriminate].
  destruct (prepare_length _ _ _ Hp) as [HX HXs].
  cbn [bind fst snd] in H.
  destruct (topsis_scores Xs) as [ts |] eqn:Ht; [| discriminate].
  cbn [bind] in H.
  destruct (normalize (map Fin (pca_scores pca_project Xs))) as [pn |] eqn:E1;
    [| discriminate].
  cbn [bind] in H.
  destruct (normalize ts) as [tn |] eqn:E2; [| discriminate].
  cbn [bind] in H.
  destruct (normalize (map Fin (weighted_scores X Xs))) as [wn |] eqn:E3;
    [| discriminate].
  cbn [bind] in H. injection H as <-.
  apply normalize_length in E1, E2, E3.
  apply topsis_scores_length in Ht.
  unfold pca_scores in E1. rewrite !length_map in E1.
  rewrite length_map, weighted_scores_length in E3 by congruence.
  rewrite final_score_length; congruence.
Qed.

Lemma analyze_inv (matrix out : list record) :
  analyze pca_project matrix = Ok out ->
  exists X Xs final,
    prepare matrix = Ok (X, Xs) /\
    scores pca_project matrix = Ok final /\
    List.length final = List.length matrix /\
    out = PySort.sorted_reverse key (append_scores matrix final).
Proof.
  unfold analyze. intros H.
  destruct (scores pca_project matrix) as [final |] eqn:Hs; [| discriminate].
  cbn [bind] in H. injection H as <-.
  pose proof (scores_length _ _ Hs) as Hlen.
  unfold scores in Hs.
  destruct (prepare matrix) as [[X Xs] |] eqn:Hp; [| discriminate].
  exists X, Xs, final. repeat split; auto.
Qed.

Lemma append_scores_length (matrix : list record) (final : list npfloat) :
  List.length final = List.length matrix ->
  List.length (append_scores matrix final) = List.length matrix.
Proof.
  intros H. unfold append_scores. rewrite length_map, length_combine. lia.
Qed.

Lemma append_scores_In (matrix : list record) (final : list npfloat)
      (r : record) :
  In r (append_scores matrix final) ->
  exists row s, In row matrix /\ In s final /\ r = row ++ [CFloat s].
Proof.
  unfold append_scores. intros H.
  apply in_map_iff in H as [[row s] [<- Hin]].
  exists row, s. split; [eapply in_combine_l, Hin |].
  split; [eapply in_combine_r, Hin | reflexivity].
Qed.

Lemma key_append (row : record) (s : npfloat) : key (row ++ [CFloat s]) = s.
Proof. unfold key. now rewrite last_last. Qed.

End Run.

(** ** The engine raises only while it builds the feature matrix *)

Section Totality.

Import Mat Engine.

Local Open Scope R_scope.

Variable pca_project : array2 -> list R -> R.

Lemma normalize_succeeds (arr : list npfloat) :
  arr <> [] -> exists arr', normalize arr = Ok arr'.
Proof.
  destruct arr as [| a arr]; [congruence |]. intros _.
  unfold normalize. simpl. eauto.
Qed.

Lemma scores_succeeds (matrix : list record) (X Xs : array2) :
  prepare matrix = Ok (X, Xs) ->
  exists final, scores pca_project matrix = Ok final.
Proof.
  intros Hp. rewrite (scores_unfold _ _ _ _ Hp).
  destruct (prepare_inv _ _ _ Hp) as (Hrows & Hrect & Hne & Hfit).
  destruct (fit_transform_columns 9 X Hne Hrect) as (Xs' & E & Hlen & Hr & _).
  rewrite Hfit in E. injection E as <-.
  assert (HneXs : Xs <> []).
  { destruct Xs; [| discriminate]. destruct X; [congruence | discriminate]. }
  destruct (ideal_points_length 9 Xs HneXs Hr) as (best & worst & Hip & _).
  rewrite (topsis_scores_eq _ _ _ Hip). cbn [bind].
  destruct (normalize_succeeds (map Fin (pca_scores pca_project Xs)))
    as [pn ->].
  { unfold pca_scores. destruct Xs; [congruence | discriminate]. }
  cbn [bind].
  destruct (normalize_succeeds
              (map (fun x => topsis_score (dist x best) (dist x worst)) Xs))
    as [tn ->].
  { destruct Xs; [congruence | discriminate]. }
  cbn [bind].
  destruct (normalize_succeeds (map Fin (weighted_scores X Xs))) as [wn ->].
  { intros E. apply (f_equal (@List.length _)) in E.
    rewrite length_map, weighted_scores_length in E by exact Hlen.
    destruct X; [congruence | discriminate]. }
  cbn [bind]. eauto.
Qed.

Lemma analyze_succeeds (matrix : list record) (X Xs : array2) :
  prepare matrix = Ok (X, Xs) ->
  exists out, analyze pca_project matrix = Ok out.
Proof.
  intros Hp. destruct (scores_succeeds _ _ _ Hp) as [final Hs].
  unfold analyze. rewrite Hs. cbn [bind]. eauto.
Qed.

Lemma features_beta :
  features Sample.beta =
    Ok [CInt 200; CInt 210; CFloat (Fin 0.5); CInt 1; CInt 2; CInt 20;
        CInt 3; CInt 40; CInt 8400].
Proof. reflexivity. Qed.

Lemma prepare_alpha_beta :
  exists Xs,
    prepare [Sample.alpha; Sample.beta]
      = Ok ([Sample.alpha_features; Sample.beta_features], Xs).
Proof.
  destruct (fit_transform_columns 9
              [Sample.alpha_features; Sample.beta_features])
    as (Xs & Hfit & _); [discriminate | repeat constructor |].
  exists Xs.
  unfold prepare. cbn [mapM]. rewrite features_alpha, features_beta.
  cbn [bind]. unfold np_array. cbn [mapM to_float bind check_array finite].
  exact Hfit.
Qed.

Lemma analyze_alpha_beta :
  exists out, analyze pca_project [Sample.alpha; Sample.beta] = Ok out.
Proof.
  destruct prepare_alpha_beta as [Xs Hp].
  exact (analyze_succeeds _ _ _ Hp).
Qed.

End Totality.

(** ** The Weighted-Penalty scorer, the closing-price fallback, the Ranker *)

Section Records.

Import Mat Engine.

Local Open Scope R_scope.

Variable pca_project : array2 -> list R -> R.

Ltac invert_row H :=
  repeat match type of H with
         | Forall2 _ (_ :: _) _ =>
             let c := fresh "c" in let v := fresh "v" in
             let fv := fresh "fv" in let x := fresh "x" in
             let Hv := fresh "Hv" in let H' := fresh "H" in
             inversion H as [| c v fv x Hv H']; subst; clear H; rename H' into H
         end;
  inversion H; subst; clear H.

(** The values of a row of the feature matrix, cell by cell. *)
Lemma row_of_inv (row : record) (x : list R) :
  row_of row x ->
  exists c2 c3 c5 v0 v1 v2 v3 v4 v5 v6 v7 v8,
    nth_error row 2 = Some c2 /\ nth_error row 3 = Some c3 /\
    nth_error row 7 = Some c5 /\
    x = [v0; v1; v2; v3; v4; v5; v6; v7; v8] /\
    to_float c2 = Ok (Fin v0) /\
    to_float (if is_zero_dec c3 then c2 else c3) = Ok (Fin v1) /\
    to_float c5 = Ok (Fin v5).
Proof.
  intros [fv [Hfv Hx]].
  apply features_inv in Hfv.
  destruct Hfv as (c2 & c3 & c4 & c5 & c6 & c7 & c8 & c9 & c10 & Hfv).
  destruct Hfv as (E2 & E3 & _ & _ & _ & E7 & _ & _ & _ & ->).
  invert_row Hx.
  exists c2, c3, c7. do 9 eexists.
  repeat (split; [eassumption || reflexivity |]). assumption.
Qed.

(** C8.  The Weighted-Penalty score of a record is the dot product of
    its scaled feature vector with the weights, less [tanh (pe / 50)]
    where [pe] is the value of the P/E cell of the record as parsed
    (position 7 of the record, column 5 of the un-scaled feature matrix),
    not its scaled value.  These scores are what the engine normalises
    as the third method. *)
Theorem weighted_penalty_spec (matrix : list record) (X Xs : array2) :
  prepare matrix = Ok (X, Xs) ->
  scores pca_project matrix =
    (topsis <- topsis_scores Xs ;;
     pca_norm <- normalize (map Fin (pca_scores pca_project Xs)) ;;
     topsis_norm <- normalize topsis ;;
     weighted_norm <- normalize (map Fin (weighted_scores X Xs)) ;;
     Ok (final_score pca_norm topsis_norm weighted_norm)) /\
  List.length (weighted_scores X Xs) = List.length matrix /\
  forall i row c7,
    nth_error matrix i = Some row -> nth_error row 7 = Some c7 ->
    exists raw_pe x xs,
      to_float c7 = Ok (Fin raw_pe) /\
      nth_error X i = Some x /\ nth_error x 5 = Some raw_pe /\
      nth_error Xs i = Some xs /\
      nth_error (weighted_scores X Xs) i
        = Some (dot xs weights - tanh (raw_pe / 50)).
Proof.
  intros Hp.
  split; [exact (scores_unfold pca_project _ _ _ Hp) |].
  destruct (prepare_inv _ _ _ Hp) as (Hrows & Hrect & Hne & Hfit).
  destruct (prepare_length _ _ _ Hp) as [HX HXs].
  split; [rewrite weighted_scores_length; congruence |].
  intros i row c7 Hrow Hc7.
  destruct (Forall2_nth_error _ _ _ _ _ Hrows Hrow) as [x [Hx Hrx]].
  apply row_of_inv in Hrx.
  destruct Hrx as (c2 & c3 & c5 & v0 & v1 & v2 & v3 & v4 & v5 & v6 & v7 & v8
                   & _ & _ & E7 & -> & _ & _ & Hpe).
  rewrite Hc7 in E7. injection E7 as <-.
  destruct (nth_error Xs i) as [xs |] eqn:Hxs.
  - exists v5, [v0; v1; v2; v3; v4; v5; v6; v7; v8], xs.
    repeat split; auto.
    now rewrite (weighted_scores_nth _ _ _ _ _ Hx Hxs).
  - apply nth_error_None in Hxs.
    assert (i < List.length matrix)%nat by (apply nth_error_Some; congruence).
    lia.
Qed.

Lemma nth_error_app_score (row : record) (s : npfloat) (i : nat) (c : cell) :
  nth_error row i = Some c -> nth_error (row ++ [CFloat s]) i = Some c.
Proof.
  intros H. rewrite nth_error_app1; [exact H |].
  apply nth_error_Some. congruence.
Qed.

Lemma append_scores_rows (matrix : list record) (final : list npfloat) :
  List.length final = List.length matrix ->
  Forall2 (fun row r => exists s, r = row ++ [CFloat s])
          matrix (append_scores matrix final).
Proof.
  unfold append_scores. revert final.
  induction matrix as [| row matrix IH]; intros [| s final] H; simpl in *;
    try discriminate; constructor; eauto.
Qed.

(** C9.  When the engine returns, every record whose closing cell
    (position 3) is zero has the value of its opening cell (position 2)
    in both column 0 and column 1 of the feature matrix; a record whose
    closing cell is not zero has the value of that cell in column 1.
    The three scorers read that matrix and its scaled copy, and nothing
    else of the records.  The records themselves are not touched: every
    output record is an input record with the score appended, and its
    cell at position 3 is the one the input record had. *)
Theorem closing_fallback (matrix out : list record) :
  analyze pca_project matrix = Ok out ->
  exists X Xs final,
    prepare matrix = Ok (X, Xs) /\
    scores pca_project matrix = Ok final /\
    scores pca_project matrix =
      (topsis <- topsis_scores Xs ;;
       pca_norm <- normalize (map Fin (pca_scores pca_project Xs)) ;;
       topsis_norm <- normalize topsis ;;
       weighted_norm <- normalize (map Fin (weighted_scores X Xs)) ;;
       Ok (final_score pca_norm topsis_norm weighted_norm)) /\
    (forall i row c2 c3,
       nth_error matrix i = Some row ->
       nth_error row 2 = Some c2 -> nth_error row 3 = Some c3 ->
       exists opening closing rest,
         nth_error X i = Some (opening :: closing :: rest) /\
         to_float c2 = Ok (Fin opening) /\
         (is_zero c3 -> closing = opening) /\
         (~ is_zero c3 -> to_float c3 = Ok (Fin closing))) /\
    Permutation (append_scores matrix final) out /\
    (forall r, In r out ->
       exists row s c3,
         In row matrix /\ r = row ++ [CFloat s] /\
         nth_error row 3 = Some c3 /\ nth_error r 3 = Some c3).
Proof.
  intros H.
  destruct (analyze_inv pca_project _ _ H) as (X & Xs & final & Hp & Hs & Hlen & ->).
  destruct (prepare_inv _ _ _ Hp) as (Hrows & Hrect & Hne & Hfit).
  exists X, Xs, final.
  split; [exact Hp |]. split; [exact Hs |].
  split; [exact (scores_unfold pca_project _ _ _ Hp) |].
  split.
  { intros i row c2 c3 Hrow E2 E3.
    destruct (Forall2_nth_error _ _ _ _ _ Hrows Hrow) as [x [Hx Hrx]].
    apply row_of_inv in Hrx.
    destruct Hrx as (c2' & c3' & c5 & v0 & v1 & v2 & v3 & v4 & v5 & v6 & v7
                     & v8 & E2' & E3' & _ & -> & H0 & H1 & _).
    rewrite E2 in E2'. injection E2' as <-.
    rewrite E3 in E3'. injection E3' as <-.
    exists v0, v1, [v2; v3; v4; v5; v6; v7; v8].
    split; [exact Hx |]. split; [exact H0 |].
    destruct (is_zero_dec c3) as [Hz | Hz].
    - split; [| tauto]. intros _. congruence.
    - split; [tauto |]. intros _. exact H1. }
  split; [apply sorted_reverse_perm |].
  intros r Hr.
  apply (Permutation_in r (Permutation_sym (sorted_reverse_perm key _))) in Hr.
  apply append_scores_In in Hr as (row & s & Hrow & _ & ->).
  destruct (In_nth_error _ _ Hrow) as [i Hi].
  destruct (Forall2_nth_error _ _ _ _ _ Hrows Hi) as [x [_ Hrx]].
  apply row_of_inv in Hrx.
  destruct Hrx as (c2 & c3 & _ & _ & _ & _ & _ & _ & _ & _ & _ & _ & _ & E3 & _).
  exists row, s, c3. repeat split; auto.
  now apply nth_error_app_score.
Qed.

(** C10.  When the engine returns, its output is a permutation of the
    input records, each extended by exactly one appended score field, and
    the descending sort is stable: for every score value, the records
    with that score stand in the output in their ingestion order. *)
Theorem ranker_stable_permutation (matrix out : list record) :
  analyze pca_project matrix = Ok out ->
  exists final,
    scores pca_project matrix = Ok final /\
    List.length final = List.length matrix /\
    Forall2 (fun row r => exists s, r = row ++ [CFloat s])
            matrix (append_scores matrix final) /\
    Permutation (append_scores matrix final) out /\
    forall k, PySort.with_key key k out
              = PySort.with_key key k (append_scores matrix final).
Proof.
  intros H.
  destruct (analyze_inv pca_project _ _ H) as (X & Xs & final & Hp & Hs & Hlen & ->).
  exists final.
  split; [exact Hs |]. split; [exact Hlen |].
  split; [now apply append_scores_rows |].
  split; [apply sorted_reverse_perm |].
  intros k. apply sorted_reverse_stable.
Qed.

End Records.

(** ** The composite score of records that are not all alike *)

Section Composite.

Import Mat Engine.

Local Open Scope R_scope.

Variable pca_project : array2 -> list R -> R.

(** A column of the feature matrix that is not constant is not constant
    once scaled. *)
Lemma scaled_column_not_constant (X Xs : array2) (j : nat) :
  X <> [] -> rect 9 X -> fit_transform X = Ok (X, Xs) -> (j < 9)%nat ->
  lmax (column j X) <> lmin (column j X) ->
  Xs <> [] /\ rect 9 Xs /\ lmax (column j Xs) <> lmin (column j Xs).
Proof.
  intros Hne Hrect Hfit Hj Hcol.
  destruct (fit_transform_columns 9 X Hne Hrect) as (Xs' & E & Hlen & Hr & Hc).
  rewrite Hfit in E. injection E as <-.
  split; [destruct Xs; [destruct X; [congruence | discriminate] | discriminate] |].
  split; [exact Hr |].
  rewrite (Hc j Hj).
  rewrite lmax_map_mono, lmin_map_mono;
    try (apply scale_value_mono, lmin_le_lmax);
    try (apply column_nonempty, Hne).
  rewrite scale_value_min, scale_value_max by exact Hcol. lra.
Qed.

Lemma topsis_scores_unit (Xs : array2) (j : nat) :
  Xs <> [] -> rect 9 Xs -> (j < 9)%nat ->
  lmax (column j Xs) <> lmin (column j Xs) ->
  exists ts, topsis_scores Xs = Ok (map Fin ts) /\
             List.length ts = List.length Xs.
Proof.
  intros Hne Hrect Hj Hcol.
  destruct (ideal_points_differ Xs j Hne Hrect Hj Hcol)
    as (best & worst & Hip & Hlb & Hlw & Hdiff).
  rewrite (topsis_scores_eq _ _ _ Hip).
  exists (map (fun x => dist x worst / (dist x best + dist x worst)) Xs).
  split; [| apply length_map].
  f_equal. rewrite map_map. apply map_ext_in. intros x Hx.
  unfold rect in Hrect. rewrite Forall_forall in Hrect.
  pose proof (Hrect x Hx) as Hlen.
  pose proof (dist_nonneg x best) as Hdb.
  pose proof (dist_nonneg x worst) as Hdw.
  apply topsis_score_finite; auto.
  intros E. apply Hdiff.
  rewrite <- (dist_zero x best) by (congruence || lra).
  apply (dist_zero x worst); [congruence | lra].
Qed.

Lemma final_score_unit (p t w : list R) :
  Forall unit_score
    (final_score (map Fin (map (rescale p) p)) (map Fin (map (rescale t) t))
                 (map Fin (map (rescale w) w))).
Proof.
  rewrite final_score_fin. apply Forall_forall. intros s Hs.
  apply in_map_iff in Hs as [[[a b] c] [<- Hin]]. simpl.
  pose proof (in_combine_r _ _ _ _ Hin) as Hc.
  apply in_combine_l in Hin.
  pose proof (in_combine_r _ _ _ _ Hin) as Hb.
  apply in_combine_l in Hin.
  apply in_map_iff in Hin as [x [<- Hx]].
  apply in_map_iff in Hb as [y [<- Hy]].
  apply in_map_iff in Hc as [z [<- Hz]].
  pose proof (rescale_range p x Hx). pose proof (rescale_range t y Hy).
  pose proof (rescale_range w z Hz).
  eexists. split; [reflexivity | lra].
Qed.

Lemma map_Fin_nonempty (l : list R) : map Fin l <> [] -> l <> [].
Proof. destruct l; [tauto | discriminate]. Qed.

Lemma length_nonempty {A : Type} (l : list A) (n : nat) :
  List.length l = n -> (0 < n)%nat -> l <> [].
Proof. destruct l; simpl; [lia | discriminate]. Qed.

(** X21.  Away from the unguarded division of the Ideal-Point scorer
    the engine ranks as intended.  For every input record set from which the engine builds its feature
    matrix and in which some feature is not the same in all records, the
    engine returns; every composite score is a finite value of [0, 1],
    the output is in non-increasing order of composite score, and it has
    as many records as the input has data records. *)
Theorem composite_of_distinct_records (matrix : list record) (X Xs : array2) :
  prepare matrix = Ok (X, Xs) ->
  (exists j, (j < 9)%nat /\ lmax (column j X) <> lmin (column j X)) ->
  exists final out,
    scores pca_project matrix = Ok final /\
    analyze pca_project matrix = Ok out /\
    List.length out = List.length matrix /\
    Forall unit_score final /\
    Forall (fun r => unit_score (key r)) out /\
    StronglySorted (PySort.key_ge key) out.
Proof.
  intros Hp [j [Hj Hcol]].
  destruct (prepare_inv _ _ _ Hp) as (Hrows & Hrect & Hne & Hfit).
  destruct (prepare_length _ _ _ Hp) as [HX HXs].
  destruct (scaled_column_not_constant X Xs j Hne Hrect Hfit Hj Hcol)
    as (HneXs & HrXs & HcXs).
  destruct (topsis_scores_unit Xs j HneXs HrXs Hj HcXs) as (ts & Hts & Hlts).
  assert (Hpos : (0 < List.length matrix)%nat).
  { rewrite <- HX. destruct X; [congruence | simpl; lia]. }
  assert (Hs : scores pca_project matrix =
               Ok (final_score
                     (map Fin (map (rescale (pca_scores pca_project Xs))
                                   (pca_scores pca_project Xs)))
                     (map Fin (map (rescale ts) ts))
                     (map Fin (map (rescale (weighted_scores X Xs))
                                   (weighted_scores X Xs))))).
  { rewrite (scores_unfold _ _ _ _ Hp), Hts. cbn [bind].
    rewrite !normalize_fin; [reflexivity | | |].
    - apply (length_nonempty _ (List.length matrix)); [| exact Hpos].
      rewrite weighted_scores_length; congruence.
    - apply (length_nonempty _ (List.length matrix)); [congruence | exact Hpos].
    - apply (length_nonempty _ (List.length matrix)); [| exact Hpos].
      unfold pca_scores. now rewrite length_map. }
  pose proof (scores_length _ _ _ Hs) as Hlen.
  pose proof (final_score_unit (pca_scores pca_project Xs) ts
                (weighted_scores X Xs)) as Hunit.
  set (final := final_score _ _ _) in *.
  exists final, (PySort.sorted_reverse key (append_scores matrix final)).
  split; [exact Hs |].
  split; [unfold analyze; now rewrite Hs |].
  assert (Hkeys : Forall (fun r => unit_score (key r))
                         (append_scores matrix final)).
  { apply Forall_forall. intros r Hr.
    apply append_scores_In in Hr as (row & s & _ & Hin & ->).
    rewrite key_append. rewrite Forall_forall in Hunit. auto. }
  split.
  { rewrite <- (Permutation_length (sorted_reverse_perm key _)).
    now apply append_scores_length. }
  split; [exact Hunit |].
  split.
  { eapply Permutation_Forall; [apply sorted_reverse_perm | exact Hkeys]. }
  apply sorted_reverse_sorted.
  eapply Forall_impl; [| exact Hkeys].
  intros r [v [Hv _]]. now exists v.
Qed.

End Composite.

(** ** The composite score of records that are all alike *)

Section Alike.

Import Mat Engine.

Local Open Scope R_scope.

Variable pca_project : array2 -> list R -> R.

Lemma Forall_eq_repeat {A : Type} (a : A) (l : list A) :
  Forall (fun x => x = a) l -> l = repeat a (List.length l).
Proof. induction 1 as [| x l -> _ IH]; simpl; [reflexivity | now f_equal]. Qed.

Lemma map_const_repeat {A B : Type} (b : B) (l : list A) :
  map (fun _ => b) l = repeat b (List.length l).
Proof. induction l; simpl; [reflexivity | now f_equal]. Qed.

Lemma column_repeat (j : nat) (x : list R) (n : nat) :
  column j (repeat x n) = repeat (nth j x 0) n.
Proof. unfold column. apply map_repeat. Qed.

Lemma lmin_repeat (a : R) (n : nat) : lmin (repeat a (S n)) = a.
Proof.
  apply lmin_unique; [now left |].
  intros x Hx. apply repeat_spec in Hx. lra.
Qed.

Lemma lmax_repeat (a : R) (n : nat) : lmax (repeat a (S n)) = a.
Proof.
  apply lmax_unique; [now left |].
  intros x Hx. apply repeat_spec in Hx. lra.
Qed.

Lemma nine_zeros (x : list R) :
  List.length x = 9%nat -> (forall j, (j < 9)%nat -> nth j x 0 = 0) ->
  x = Sample.zero_row.
Proof.
  intros Hlen H.
  do 9 (destruct x as [| ? x]; [discriminate |]).
  destruct x; [| discriminate].
  pose proof (H 0%nat) as H0. pose proof (H 1%nat) as H1.
  pose proof (H 2%nat) as H2. pose proof (H 3%nat) as H3.
  pose proof (H 4%nat) as H4. pose proof (H 5%nat) as H5.
  pose proof (H 6%nat) as H6. pose proof (H 7%nat) as H7.
  pose proof (H 8%nat) as H8. simpl in *.
  rewrite H0, H1, H2, H3, H4, H5, H6, H7, H8 by lia. reflexivity.
Qed.

(** Constant columns throughout: the scaled matrix is zero. *)
Lemma constant_columns_scaled (X Xs : array2) :
  X <> [] -> rect 9 X -> fit_transform X = Ok (X, Xs) ->
  (forall j, (j < 9)%nat -> lmax (column j X) = lmin (column j X)) ->
  Xs = repeat Sample.zero_row (List.length X).
Proof.
  intros Hne Hrect Hfit Hconst.
  destruct (fit_transform_columns 9 X Hne Hrect) as (Xs' & E & Hlen & Hr & Hc).
  rewrite Hfit in E. injection E as <-.
  rewrite <- Hlen. apply Forall_eq_repeat.
  apply Forall_forall. intros x Hx.
  unfold rect in Hr. rewrite Forall_forall in Hr.
  apply nine_zeros; [now apply Hr |].
  intros j Hj.
  assert (Hin : In (nth j x 0) (column j Xs))
    by (unfold column; apply in_map_iff; eauto).
  rewrite (Hc j Hj) in Hin.
  apply in_map_iff in Hin as [v [Hv _]].
  rewrite <- Hv. unfold scale_value.
  destruct (Req_dec_T _ _) as [_ | Hd]; [reflexivity |].
  now rewrite (Hconst j Hj) in Hd.
Qed.

Lemma ideal_points_zero_rows (n : nat) :
  ideal_points (repeat Sample.zero_row (S n))
    = Ok (Sample.zero_row, Sample.zero_row).
Proof.
  rewrite ideal_points_nine.
  - cbn [seq map existsb cost_idx Nat.eqb orb].
    rewrite !column_repeat. cbn [nth Sample.zero_row].
    now rewrite !lmin_repeat, !lmax_repeat.
  - discriminate.
  - apply Forall_forall. intros x Hx. apply repeat_spec in Hx. now subst.
Qed.

Lemma topsis_scores_zero_rows (n : nat) :
  topsis_scores (repeat Sample.zero_row (S n)) = Ok (repeat NaN (S n)).
Proof.
  rewrite (topsis_scores_eq _ _ _ (ideal_points_zero_rows n)).
  rewrite map_repeat. now rewrite dist_same, topsis_score_zero.
Qed.

Lemma normalize_nans (n : nat) :
  normalize (repeat NaN (S n)) = Ok (repeat NaN (S n)).
Proof.
  rewrite normalize_nan by now left.
  now rewrite map_const_repeat, repeat_length.
Qed.

(** X1.  When the engine has built the feature matrix and all records
    share one feature vector (a single record is the plainest case),
    the engine returns and the composite score of every record is NaN. *)
Theorem composite_of_alike_records (matrix : list record) (X Xs : array2) :
  prepare matrix = Ok (X, Xs) ->
  (forall j, (j < 9)%nat -> lmax (column j X) = lmin (column j X)) ->
  scores pca_project matrix = Ok (repeat NaN (List.length matrix)) /\
  exists out,
    analyze pca_project matrix = Ok out /\
    List.length out = List.length matrix /\
    Forall (fun r => key r = NaN) out.
Proof.
  intros Hp Hconst.
  destruct (prepare_inv _ _ _ Hp) as (Hrows & Hrect & Hne & Hfit).
  destruct (prepare_length _ _ _ Hp) as [HX HXs].
  pose proof (constant_columns_scaled X Xs Hne Hrect Hfit Hconst) as HXs0.
  rewrite HX in HXs0.
  destruct (List.length matrix) as [| n] eqn:Hn.
  { destruct X; [congruence | discriminate]. }
  assert (Hs : scores pca_project matrix = Ok (repeat NaN (S n))).
  { rewrite (scores_unfold _ _ _ _ Hp).
    rewrite HXs0 at 1. rewrite topsis_scores_zero_rows. cbn [bind].
    destruct (normalize (map Fin (pca_scores pca_project Xs)))
      as [pn |] eqn:E1.
    2:{ unfold normalize, pca_scores in E1. rewrite HXs0 in E1.
        discriminate. }
    cbn [bind]. rewrite normalize_nans. cbn [bind].
    destruct (normalize (map Fin (weighted_scores X Xs))) as [wn |] eqn:E3.
    2:{ unfold normalize in E3.
        destruct (map Fin (weighted_scores X Xs)) eqn:E; [| discriminate].
        apply (f_equal (@List.length _)) in E.
        rewrite length_map, weighted_scores_length in E by congruence.
        simpl in E. congruence. }
    cbn [bind]. f_equal.
    apply normalize_length in E1, E3.
    unfold pca_scores in E1. rewrite !length_map in E1.
    rewrite length_map, weighted_scores_length in E3 by congruence.
    apply final_score_nan; congruence. }
  split; [exact Hs |].
  exists (PySort.sorted_reverse key (append_scores matrix (repeat NaN (S n)))).
  split; [unfold analyze; now rewrite Hs |].
  split.
  { rewrite <- (Permutation_length (sorted_reverse_perm key _)).
    rewrite append_scores_length; [congruence |].
    now rewrite repeat_length. }
  eapply Permutation_Forall; [apply sorted_reverse_perm |].
  apply Forall_forall. intros r Hr.
  apply append_scores_In in Hr as (row & s & _ & Hin & ->).
  rewrite key_append. now apply repeat_spec in Hin.
Qed.

End Alike.

(** ** Fatal inputs *)

Section Fatal.

Import Mat Engine.

Variable pca_project : array2 -> list R -> R.

Lemma getitem_short (row : record) (i : nat) :
  (List.length row <= i)%nat -> getitem row i = Raise IndexError.
Proof.
  intros H. unfold getitem.
  now rewrite (proj2 (nth_error_None row i) H).
Qed.

Lemma getitem_long (row : record) (i : nat) :
  (i < List.length row)%nat -> exists c, getitem row i = Ok c.
Proof.
  intros H. unfold getitem.
  destruct (nth_error row i) as [c |] eqn:E; [eauto |].
  apply nth_error_None in E. lia.
Qed.

(** The first loop raises nothing but [IndexError], and raises it on a
    record of fewer than 11 cells. *)
Lemma features_raises (row : record) (e : pyerr) :
  features row = Raise e -> e = IndexError.
Proof.
  unfold features, getitem.
  destruct (nth_error row 2); [| simpl; congruence].
  destruct (nth_error row 3) as [c3 |]; [| simpl; congruence].
  cbn [bind].
  replace (if is_zero_dec c3 then Ok c else Ok c3)
    with (Ok (if is_zero_dec c3 then c else c3))
    by now destruct (is_zero_dec c3).
  cbn [bind].
  destruct (nth_error row 4); [| simpl; congruence].
  destruct (nth_error row 5); [| simpl; congruence].
  destruct (nth_error row 6); [| simpl; congruence].
  destruct (nth_error row 7); [| simpl; congruence].
  destruct (nth_error row 8); [| simpl; congruence].
  destruct (nth_error row 9); [| simpl; congruence].
  destruct (nth_error row 10); simpl; congruence.
Qed.

Lemma features_short (row : record) :
  (List.length row < 11)%nat -> features row = Raise IndexError.
Proof.
  intros H. destruct (features row) as [fv | e] eqn:E.
  - apply features_inv in E.
    destruct E as (c2 & c3 & c4 & c5 & c6 & c7 & c8 & c9 & c10 & E).
    destruct E as (_ & _ & _ & _ & _ & _ & _ & _ & E10 & _).
    assert (10 < List.length row)%nat by (apply nth_error_Some; congruence).
    lia.
  - f_equal. now apply features_raises in E.
Qed.

Lemma mapM_features_short (matrix : list record) :
  Exists (fun row => (List.length row < 11)%nat) matrix ->
  mapM features matrix = Raise IndexError.
Proof.
  induction 1 as [row matrix H | row matrix _ IH]; simpl.
  - now rewrite (features_short row H).
  - destruct (features row) as [fv | e] eqn:E; simpl.
    + now rewrite IH.
    + f_equal. now apply features_raises in E.
Qed.

(** X2.  A record of fewer than 11 cells anywhere in the input makes the
    whole call fail with [IndexError]; no partial ranking is returned. *)
Theorem short_record_raises (matrix : list record) :
  Exists (fun row => (List.length row < 11)%nat) matrix ->
  analyze pca_project matrix = Raise IndexError.
Proof.
  intros H. unfold analyze, scores, prepare.
  now rewrite (mapM_features_short matrix H).
Qed.

Lemma features_long (row : record) :
  (11 <= List.length row)%nat -> exists fv, features row = Ok fv.
Proof.
  intros H. destruct (features row) as [fv | e] eqn:E; [eauto |].
  exfalso. unfold features in E.
  destruct (getitem_long row 2) as [c2 E2]; [lia |].
  destruct (getitem_long row 3) as [c3 E3]; [lia |].
  destruct (getitem_long row 4) as [c4 E4]; [lia |].
  destruct (getitem_long row 5) as [c5 E5]; [lia |].
  destruct (getitem_long row 6) as [c6 E6]; [lia |].
  destruct (getitem_long row 7) as [c7 E7]; [lia |].
  destruct (getitem_long row 8) as [c8 E8]; [lia |].
  destruct (getitem_long row 9) as [c9 E9]; [lia |].
  destruct (getitem_long row 10) as [c10 E10]; [lia |].
  rewrite E2, E3, E4, E5, E6, E7, E8, E9, E10 in E. cbn [bind] in E.
  destruct (is_zero_dec c3); discriminate.
Qed.

Lemma to_float_raises (c : cell) (e : pyerr) :
  to_float c = Raise e -> e = ValueError.
Proof.
  destruct c as [z | x | s]; simpl; try discriminate.
  destruct (PyStr.py_float s); [discriminate | congruence].
Qed.

Lemma mapM_to_float_raises (fv : list cell) (e : pyerr) :
  mapM to_float fv = Raise e -> e = ValueError.
Proof.
  induction fv as [| c fv IH]; simpl; [discriminate |].
  destruct (to_float c) as [x | e'] eqn:Hc; simpl.
  - destruct (mapM to_float fv); simpl; [discriminate |].
    intros H. injection H as <-. now apply IH.
  - intros H. injection H as <-. eapply to_float_raises, Hc.
Qed.

(** A feature cell: one of the positions 2 to 10 of a record. *)
Lemma unreadable_feature (row : record) (fv : list cell) (i : nat)
      (s : string) :
  features row = Ok fv -> (2 <= i <= 10)%nat ->
  nth_error row i = Some (CText s) -> PyStr.py_float s = None ->
  mapM to_float fv = Raise ValueError.
Proof.
  intros Hfv Hi Hrow Hs.
  apply features_inv in Hfv.
  destruct Hfv as (c2 & c3 & c4 & c5 & c6 & c7 & c8 & c9 & c10 & Hfv).
  destruct Hfv as (E2 & E3 & E4 & E5 & E6 & E7 & E8 & E9 & E10 & ->).
  apply mapM_Exists_raise; [exact to_float_raises |].
  assert (Hbad : to_float (CText s) = Raise ValueError)
    by (simpl; now rewrite Hs).
  assert (Hcases : (i = 2 \/ i = 3 \/ i = 4 \/ i = 5 \/ i = 6 \/ i = 7 \/
                    i = 8 \/ i = 9 \/ i = 10)%nat) by lia.
  repeat destruct Hcases as [-> | Hcases]; try subst i.
  - rewrite E2 in Hrow. injection Hrow as ->. now apply Exists_cons_hd.
  - rewrite E3 in Hrow. injection Hrow as ->.
    apply Exists_cons_tl, Exists_cons_hd.
    destruct (is_zero_dec (CText s)) as [[] | _]. exact Hbad.
  - rewrite E4 in Hrow. injection Hrow as ->.
    do 2 apply Exists_cons_tl. now apply Exists_cons_hd.
  - rewrite E5 in Hrow. injection Hrow as ->.
    do 3 apply Exists_cons_tl. now apply Exists_cons_hd.
  - rewrite E6 in Hrow. injection Hrow as ->.
    do 4 apply Exists_cons_tl. now apply Exists_cons_hd.
  - rewrite E7 in Hrow. injection Hrow as ->.
    do 5 apply Exists_cons_tl. now apply Exists_cons_hd.
  - rewrite E8 in Hrow. injection Hrow as ->.
    do 6 apply Exists_cons_tl. now apply Exists_cons_hd.
  - rewrite E9 in Hrow. injection Hrow as ->.
    do 7 apply Exists_cons_tl. now apply Exists_cons_hd.
  - rewrite E10 in Hrow. injection Hrow as ->.
    do 8 apply Exists_cons_tl. now apply Exists_cons_hd.
Qed.

(** X3.  When every record has its 11 cells and some feature cell is a
    text that [float] cannot read, the whole call fails with
    [ValueError]. *)
Theorem unreadable_feature_raises (matrix : list record) :
  Forall (fun row => (11 <= List.length row)%nat) matrix ->
  Exists (fun row => exists i s,
            (2 <= i <= 10)%nat /\ nth_error row i = Some (CText s) /\
            PyStr.py_float s = None) matrix ->
  analyze pca_project matrix = Raise ValueError.
Proof.
  intros Hlong Hbad.
  assert (Hnd : exists nd, mapM features matrix = Ok nd /\
                           Exists (fun fv => mapM to_float fv = Raise ValueError) nd).
  { induction Hlong as [| row matrix Hrow Hlong IH]; [inversion Hbad |].
    destruct (features_long row Hrow) as [fv Hfv].
    simpl. rewrite Hfv. cbn [bind].
    inversion Hbad as [? ? (i & s & Hi & Hc & Hs) | ? ? Hbad']; subst.
    - assert (Hrest : exists nd, mapM features matrix = Ok nd).
      { clear IH Hbad. induction Hlong as [| r m Hr _ IHm]; simpl; [eauto |].
        destruct (features_long r Hr) as [fr ->]. destruct IHm as [nd ->].
        simpl. eauto. }
      destruct Hrest as [nd ->]. cbn [bind].
      eexists. split; [reflexivity |].
      apply Exists_cons_hd. eapply unreadable_feature; eassumption.
    - destruct (IH Hbad') as (nd & -> & Hex). cbn [bind].
      eexists. split; [reflexivity |]. now apply Exists_cons_tl. }
  destruct Hnd as (nd & Hnd & Hex).
  unfold analyze, scores, prepare, np_array. rewrite Hnd. cbn [bind].
  rewrite (mapM_Exists_raise (mapM to_float) ValueError nd
             mapM_to_float_raises Hex).
  reflexivity.
Qed.

End Fatal.

(** ** The theorems at sample inputs *)

Section Evidence.

Import Mat Engine.

Local Open Scope R_scope.

Lemma weighted_penalty_spec_witness :
  scores Sample.no_pca [Sample.alpha] =
    (topsis <- topsis_scores [Sample.zero_row] ;;
     pca_norm <-
       normalize (map Fin (pca_scores Sample.no_pca [Sample.zero_row])) ;;
     topsis_norm <- normalize topsis ;;
     weighted_norm <-
       normalize
         (map Fin (weighted_scores [Sample.alpha_features] [Sample.zero_row])) ;;
     Ok (final_score pca_norm topsis_norm weighted_norm)) /\
  List.length (weighted_scores [Sample.alpha_features] [Sample.zero_row])
    = 1%nat /\
  forall i row c7,
    nth_error [Sample.alpha] i = Some row -> nth_error row 7 = Some c7 ->
    exists raw_pe x xs,
      to_float c7 = Ok (Fin raw_pe) /\
      nth_error [Sample.alpha_features] i = Some x /\
      nth_error x 5 = Some raw_pe /\
      nth_error [Sample.zero_row] i = Some xs /\
      nth_error (weighted_scores [Sample.alpha_features] [Sample.zero_row]) i
        = Some (dot xs weights - tanh (raw_pe / 50)).
Proof.
  exact (weighted_penalty_spec Sample.no_pca [Sample.alpha]
           [Sample.alpha_features] [Sample.zero_row] prepare_alpha).
Defined.

Lemma closing_fallback_witness :
  exists out,
    analyze Sample.no_pca [Sample.alpha; Sample.beta] = Ok out /\
    exists X Xs final,
      prepare [Sample.alpha; Sample.beta] = Ok (X, Xs) /\
      scores Sample.no_pca [Sample.alpha; Sample.beta] = Ok final /\
      scores Sample.no_pca [Sample.alpha; Sample.beta] =
        (topsis <- topsis_scores Xs ;;
         pca_norm <- normalize (map Fin (pca_scores Sample.no_pca Xs)) ;;
         topsis_norm <- normalize topsis ;;
         weighted_norm <- normalize (map Fin (weighted_scores X Xs)) ;;
         Ok (final_score pca_norm topsis_norm weighted_norm)) /\
      (forall i row c2 c3,
         nth_error [Sample.alpha; Sample.beta] i = Some row ->
         nth_error row 2 = Some c2 -> nth_error row 3 = Some c3 ->
         exists opening closing rest,
           nth_error X i = Some (opening :: closing :: rest) /\
           to_float c2 = Ok (Fin opening) /\
           (is_zero c3 -> closing = opening) /\
           (~ is_zero c3 -> to_float c3 = Ok (Fin closing))) /\
      Permutation (append_scores [Sample.alpha; Sample.beta] final) out /\
      (forall r, In r out ->
         exists row s c3,
           In row [Sample.alpha; Sample.beta] /\ r = row ++ [CFloat s] /\
           nth_error row 3 = Some c3 /\ nth_error r 3 = Some c3).
Proof.
  destruct (analyze_alpha_beta Sample.no_pca) as [out H].
  exists out. split; [exact H |].
  exact (closing_fallback Sample.no_pca [Sample.alpha; Sample.beta] out H).
Defined.

Lemma ranker_stable_permutation_witness :
  exists out,
    analyze Sample.no_pca [Sample.alpha; Sample.beta] = Ok out /\
    exists final,
      scores Sample.no_pca [Sample.alpha; Sample.beta] = Ok final /\
      List.length final = 2%nat /\
      Forall2 (fun row r => exists s, r = row ++ [CFloat s])
              [Sample.alpha; Sample.beta]
              (append_scores [Sample.alpha; Sample.beta] final) /\
      Permutation (append_scores [Sample.alpha; Sample.beta] final) out /\
      forall k, PySort.with_key key k out
                = PySort.with_key key k
                    (append_scores [Sample.alpha; Sample.beta] final).
Proof.
  destruct (analyze_alpha_beta Sample.no_pca) as [out H].
  exists out. split; [exact H |].
  exact (ranker_stable_permutation Sample.no_pca
           [Sample.alpha; Sample.beta] out H).
Defined.

Lemma composite_of_distinct_records_witness :
  exists final out,
    scores Sample.no_pca [Sample.alpha; Sample.beta] = Ok final /\
    analyze Sample.no_pca [Sample.alpha; Sample.beta] = Ok out /\
    List.length out = 2%nat /\
    Forall unit_score final /\
    Forall (fun r => unit_score (key r)) out /\
    StronglySorted (PySort.key_ge key) out.
Proof.
  destruct prepare_alpha_beta as [Xs Hp].
  apply (composite_of_distinct_records Sample.no_pca
           [Sample.alpha; Sample.beta]
           [Sample.alpha_features; Sample.beta_features] Xs Hp).
  exists 0%nat. split; [lia |]. simpl.
  unfold Rmax, Rmin. destruct (Rle_dec 100 200); lra.
Defined.

Lemma composite_of_alike_records_witness :
  scores Sample.no_pca [Sample.alpha] = Ok (repeat NaN 1) /\
  exists out,
    analyze Sample.no_pca [Sample.alpha] = Ok out /\
    List.length out = 1%nat /\
    Forall (fun r => key r = NaN) out.
Proof.
  apply (composite_of_alike_records Sample.no_pca [Sample.alpha]
           [Sample.alpha_features] [Sample.zero_row] prepare_alpha).
  intros j _. reflexivity.
Defined.

Lemma short_record_raises_witness :
  analyze Sample.no_pca [Sample.alpha; [CInt 3; CText "GAMMA"]]
    = Raise IndexError.
Proof.
  apply (short_record_raises Sample.no_pca
           [Sample.alpha; [CInt 3; CText "GAMMA"]]).
  apply Exists_cons_tl, Exists_cons_hd. simpl. lia.
Defined.

Lemma unreadable_feature_raises_witness :
  analyze Sample.no_pca
    [[CInt 3; CText "GAMMA"; CInt 10; CInt 10; CText "n/a"; CInt 0; CInt 0;
      CInt 0; CInt 0; CInt 0; CInt 0]]
    = Raise ValueError.
Proof.
  apply (unreadable_feature_raises Sample.no_pca
           [[CInt 3; CText "GAMMA"; CInt 10; CInt 10; CText "n/a"; CInt 0;
             CInt 0; CInt 0; CInt 0; CInt 0; CInt 0]]).
  - repeat constructor.
  - apply Exists_cons_hd. exists 4%nat, "n/a".
    split; [lia |]. split; reflexivity.
Defined.

End Evidence.

(** ** The Value Parser on plain numbers *)

Section PlainNumbers.

Import PyStr.

Local Open Scope Z_scope.

Lemma is_digit_range (c : ascii) :
  is_digit c = true <-> (48 <= nat_of_ascii c <= 57)%nat.
Proof.
  unfold is_digit. rewrite andb_true_iff, !Nat.leb_le. tauto.
Qed.

Lemma digit_not_space (c : ascii) : is_digit c = true -> is_space c = false.
Proof.
  intros H. apply is_digit_range in H. unfold is_space.
  apply orb_false_iff. split.
  - apply Nat.eqb_neq. lia.
  - apply andb_false_iff. right. apply Nat.leb_gt. lia.
Qed.

Lemma digit_not_char (c a : ascii) :
  is_digit a = false -> is_digit c = true -> Ascii.eqb c a = false.
Proof.
  intros Ha Hc. destruct (Ascii.eqb_spec c a) as [-> | _]; congruence.
Qed.

Lemma digit_lower (c : ascii) : is_digit c = true -> lower c = c.
Proof.
  intros H. apply is_digit_range in H. unfold lower.
  replace (Nat.leb 65 (nat_of_ascii c)) with false; [reflexivity |].
  symmetry. apply Nat.leb_gt. lia.
Qed.

Lemma lstrip_no_space (l : list ascii) :
  Forall (fun c => is_space c = false) l -> lstrip l = l.
Proof. destruct 1 as [| c l Hc _]; simpl; [reflexivity | now rewrite Hc]. Qed.

Lemma strip_no_space (l : list ascii) :
  Forall (fun c => is_space c = false) l -> strip l = l.
Proof.
  intros H. unfold strip.
  rewrite (lstrip_no_space l H).
  rewrite (lstrip_no_space (List.rev l)) by now apply Forall_rev.
  apply rev_involutive.
Qed.

Lemma drop_underscores_none (prev : option ascii) (l : list ascii) :
  match prev with Some p => Ascii.eqb p "_" | None => false end = false ->
  Forall (fun c => Ascii.eqb c "_" = false) l ->
  drop_underscores prev l = Some l.
Proof.
  intros Hprev H. revert prev Hprev.
  induction H as [| c l Hc _ IH]; intros prev Hprev; simpl.
  - now rewrite Hprev.
  - rewrite Hc, Hprev. simpl. now rewrite (IH (Some c) Hc).
Qed.

Lemma span_digits_app (ds rest : list ascii) :
  Forall (fun c => is_digit c = true) ds ->
  match rest with c :: _ => is_digit c = false | [] => True end ->
  span_digits (ds ++ rest) = (ds, rest).
Proof.
  intros H Hrest. induction H as [| c ds Hc _ IH]; simpl.
  - destruct rest as [| c rest]; [reflexivity |]. simpl. now rewrite Hrest.
  - now rewrite Hc, IH.
Qed.

Lemma span_digits_all (ds : list ascii) :
  Forall (fun c => is_digit c = true) ds -> span_digits ds = (ds, []).
Proof.
  intros H. rewrite <- (app_nil_r ds) at 1. now apply span_digits_app.
Qed.

Lemma take_sign_unsigned (c : ascii) (l : list ascii) :
  Ascii.eqb c "-" = false -> Ascii.eqb c "+" = false ->
  take_sign (c :: l) = (false, c :: l).
Proof. intros H1 H2. simpl. now rewrite H1, H2. Qed.

(** The digits [str] writes for a natural number, and their value. *)
Lemma uint_digits (d : Decimal.uint) :
  Forall (fun c => is_digit c = true)
         (list_ascii_of_string (DecimalString.NilEmpty.string_of_uint d)).
Proof. induction d; simpl; constructor; auto. Qed.

Lemma uint_value_acc (d : Decimal.uint) (acc : positive) :
  fold_left (fun a c => 10 * a + digit_val c)
            (list_ascii_of_string (DecimalString.NilEmpty.string_of_uint d))
            (Z.pos acc)
  = Z.pos (Pos.of_uint_acc d acc).
Proof.
  revert acc. induction d; intros acc;
    cbn [list_ascii_of_string DecimalString.NilEmpty.string_of_uint
         fold_left Pos.of_uint_acc];
    [reflexivity | ..];
    rewrite <- IHd; f_equal;
    match goal with
    | |- context [digit_val ?c] =>
        let v := eval vm_compute in (digit_val c) in
        change (digit_val c) with v
    end; lia.
Qed.

Lemma uint_value (d : Decimal.uint) :
  digits_value
    (list_ascii_of_string (DecimalString.NilEmpty.string_of_uint d))
  = Z.of_N (Pos.of_uint d).
Proof.
  unfold digits_value. induction d;
    cbn [list_ascii_of_string DecimalString.NilEmpty.string_of_uint
         fold_left Pos.of_uint Z.of_N];
    [reflexivity | exact IHd | ..];
    rewrite <- uint_value_acc; f_equal.
Qed.

(** The text of an int: an optional minus sign, then at least one
    digit; the digits are worth the absolute value. *)
Lemma str_int_shape (z : Z) :
  exists (neg : bool) (ds : list ascii),
    list_ascii_of_string (Gui.str_int z)
      = (if neg then ["-"%char] else []) ++ ds /\
    ds <> [] /\
    Forall (fun c => is_digit c = true) ds /\
    z = (if neg then - digits_value ds else digits_value ds).
Proof.
  unfold Gui.str_int. destruct z as [| p | p]; simpl.
  - exists false, ["0"%char]. repeat split; try discriminate.
    repeat constructor.
  - pose proof (DecimalPos.Unsigned.to_uint_nonnil p) as Hnn.
    pose proof (DecimalPos.Unsigned.of_to p) as Hof.
    exists false,
      (list_ascii_of_string
         (DecimalString.NilEmpty.string_of_uint (Pos.to_uint p))).
    unfold DecimalString.NilZero.string_of_uint.
    destruct (Pos.to_uint p) eqn:E; try congruence;
      (split; [reflexivity |]); (split; [discriminate |]);
      (split; [apply uint_digits |]);
      rewrite uint_value, Hof; reflexivity.
  - pose proof (DecimalPos.Unsigned.to_uint_nonnil p) as Hnn.
    pose proof (DecimalPos.Unsigned.of_to p) as Hof.
    exists true,
      (list_ascii_of_string
         (DecimalString.NilEmpty.string_of_uint (Pos.to_uint p))).
    unfold DecimalString.NilZero.string_of_uint.
    destruct (Pos.to_uint p) eqn:E; try congruence;
      (split; [reflexivity |]); (split; [discriminate |]);
      (split; [apply uint_digits |]);
      rewrite uint_value, Hof; reflexivity.
Qed.

Lemma replace_char_absent (a b : ascii) (s : string) :
  Forall (fun c => Ascii.eqb c a = false) (list_ascii_of_string s) ->
  replace_char a b s = s.
Proof.
  induction s as [| c s IH]; simpl; [reflexivity |].
  intros H. inversion H as [| ? ? Hc Hs]; subst.
  now rewrite Hc, IH.
Qed.

Lemma contains_char_absent (a : ascii) (s : string) :
  Forall (fun c => Ascii.eqb c a = false) (list_ascii_of_string s) ->
  contains_char a s = false.
Proof.
  induction s as [| c s IH]; simpl; [reflexivity |].
  intros H. inversion H as [| ? ? Hc Hs]; subst.
  now rewrite Hc, IH.
Qed.

(** A minus sign or nothing, then digits: none of these characters is
    [a], when [a] is neither a digit nor the minus sign. *)
Lemma signed_digits_without (a : ascii) (neg : bool) (ds : list ascii) :
  is_digit a = false -> Ascii.eqb "-" a = false ->
  Forall (fun c => is_digit c = true) ds ->
  Forall (fun c => Ascii.eqb c a = false)
         ((if neg then ["-"%char] else []) ++ ds).
Proof.
  intros Ha Hm Hds. apply Forall_app. split.
  - destruct neg; repeat constructor. exact Hm.
  - eapply Forall_impl; [| exact Hds].
    intros c Hc. now apply digit_not_char.
Qed.

Lemma signed_digits_no_space (neg : bool) (ds : list ascii) :
  Forall (fun c => is_digit c = true) ds ->
  Forall (fun c => is_space c = false)
         ((if neg then ["-"%char] else []) ++ ds).
Proof.
  intros Hds. apply Forall_app. split.
  - destruct neg; repeat constructor.
  - eapply Forall_impl; [| exact Hds]. exact digit_not_space.
Qed.

(** [int] reads an optional minus sign followed by digits. *)
Lemma py_int_signed_digits (neg : bool) (ds : list ascii) :
  ds <> [] -> Forall (fun c => is_digit c = true) ds ->
  py_int (string_of_list_ascii ((if neg then ["-"%char] else []) ++ ds))
  = Some (if neg then - digits_value ds else digits_value ds).
Proof.
  intros Hne Hds. unfold py_int.
  rewrite list_ascii_of_string_of_list_ascii.
  rewrite strip_no_space by now apply signed_digits_no_space.
  assert (Hsign : take_sign ((if neg then ["-"%char] else []) ++ ds)
                  = (neg, ds)).
  { destruct neg; [reflexivity |]. simpl.
    destruct ds as [| c ds']; [congruence |].
    inversion Hds; subst.
    apply take_sign_unsigned; now apply digit_not_char. }
  rewrite Hsign.
  rewrite drop_underscores_none;
    [| reflexivity
     | eapply Forall_impl; [| exact Hds];
       intros c Hc; now apply digit_not_char].
  rewrite span_digits_all by exact Hds.
  destruct ds as [| c ds']; [congruence | reflexivity].
Qed.

Lemma py_int_str_int (z : Z) : py_int (Gui.str_int z) = Some z.
Proof.
  destruct (str_int_shape z) as (neg & ds & Hs & Hne & Hds & Hz).
  rewrite <- (string_of_list_ascii_of_string (Gui.str_int z)), Hs.
  rewrite py_int_signed_digits by assumption. now rewrite <- Hz.
Qed.

(** X4.  The text [str] writes for an integer, with any number of
    spaces put anywhere in it (as thousands separators, say), parses back
    to that integer. *)
Theorem integer_text_round_trip (z : Z) (s : string) :
  remove_char " " s = Gui.str_int z -> parse_value s = CInt z.
Proof.
  intros Hs.
  destruct (str_int_shape z) as (neg & ds & Hshape & Hne & Hds & Hz).
  assert (Hnc : String.eqb s "NC" = false).
  { apply String.eqb_neq. intros ->. simpl in Hs.
    rewrite <- Hs in Hshape. simpl in Hshape.
    destruct neg; [discriminate |]. simpl in Hshape.
    destruct ds as [| c ds']; [congruence |].
    injection Hshape as <- _. inversion Hds; subst. discriminate. }
  assert (Hdash : String.eqb s "-" = false).
  { apply String.eqb_neq. intros ->. simpl in Hs.
    rewrite <- Hs in Hshape. simpl in Hshape.
    destruct neg; simpl in Hshape.
    - destruct ds; [congruence | discriminate].
    - destruct ds as [| c ds']; [congruence |].
      injection Hshape as <- _. inversion Hds; subst. discriminate. }
  unfold parse_value. rewrite Hnc, Hdash. cbn [orb]. rewrite Hs.
  rewrite replace_char_absent
    by (rewrite Hshape; now apply signed_digits_without).
  rewrite contains_char_absent
    by (rewrite Hshape; now apply signed_digits_without).
  now rewrite py_int_str_int.
Qed.

Lemma replace_char_list (a b : ascii) (l : list ascii) :
  replace_char a b (string_of_list_ascii l)
  = string_of_list_ascii (map (fun c => if Ascii.eqb c a then b else c) l).
Proof. induction l as [| c l IH]; simpl; [reflexivity | now rewrite IH]. Qed.

Lemma contains_char_In (a : ascii) (l : list ascii) :
  In a l -> contains_char a (string_of_list_ascii l) = true.
Proof.
  induction l as [| c l IH]; simpl; [tauto |].
  intros [-> | H].
  - now rewrite Ascii.eqb_refl.
  - rewrite (IH H). apply orb_true_r.
Qed.

Lemma map_unchanged (f : ascii -> ascii) (l : list ascii) :
  Forall (fun c => f c = c) l -> map f l = l.
Proof. induction 1 as [| c l Hc _ IH]; simpl; [reflexivity | congruence]. Qed.

(** [m / 10^n] as [float] computes it from the digits. *)
Lemma Q2R_scale10 (m : Z) (n : nat) :
  Q2R (scale10 m (0 - Z.of_nat n)) = (IZR m / 10 ^ n)%R.
Proof.
  unfold scale10.
  destruct (Z.leb_spec 0 (0 - Z.of_nat n)) as [H | H].
  - assert (n = 0%nat) by lia. subst n.
    unfold Q2R, inject_Z. cbn [Qnum Qden Z.of_nat Z.sub Z.opp Z.add Z.pow].
    rewrite Z.mul_1_r. simpl. field.
  - unfold Q2R. cbn [Qnum Qden].
    replace (- (0 - Z.of_nat n)) with (Z.of_nat n) by lia.
    rewrite Z2Pos.id by (apply Z.pow_pos_nonneg; lia).
    rewrite <- pow_IZR. reflexivity.
Qed.

(** [float] reads digits with a decimal point among or around them. *)
Lemma py_float_decimal (neg : bool) (ip fp : list ascii) :
  Forall (fun c => is_digit c = true) ip ->
  Forall (fun c => is_digit c = true) fp ->
  ip ++ fp <> [] ->
  py_float (string_of_list_ascii
              ((if neg then ["-"%char] else []) ++ ip ++ "."%char :: fp))
  = Some (Fin (let q := scale10 (digits_value (ip ++ fp))
                                (0 - Z.of_nat (List.length fp)) in
               if neg then Qopp q else q)).
Proof.
  intros Hip Hfp Hne.
  assert (Hbody : Forall (fun c => is_digit c = true \/ c = "."%char)
                         (ip ++ "."%char :: fp)).
  { apply Forall_app. split; [| constructor; [now right |]];
      (eapply Forall_impl; [| eassumption]); intros c Hc; now left. }
  assert (Hplain : forall a, is_digit a = false -> Ascii.eqb "." a = false ->
                     Forall (fun c => Ascii.eqb c a = false)
                            (ip ++ "."%char :: fp)).
  { intros a Ha Hdot. eapply Forall_impl; [| exact Hbody].
    intros c [Hc | ->]; [now apply digit_not_char | exact Hdot]. }
  unfold py_float. rewrite list_ascii_of_string_of_list_ascii.
  rewrite strip_no_space.
  2:{ apply Forall_app. split; [destruct neg; repeat constructor |].
      eapply Forall_impl; [| exact Hbody].
      intros c [Hc | ->]; [now apply digit_not_space | reflexivity]. }
  rewrite drop_underscores_none; [| reflexivity |].
  2:{ apply Forall_app. split; [destruct neg; repeat constructor |].
      now apply Hplain. }
  assert (Hhead : exists c rest,
             ip ++ "."%char :: fp = c :: rest /\
             (is_digit c = true \/ c = "."%char)).
  { destruct ip as [| c ip']; simpl.
    - exists "."%char, fp. split; [reflexivity | now right].
    - exists c, (ip' ++ "."%char :: fp). split; [reflexivity |].
      inversion Hip; subst. now left. }
  destruct Hhead as (c & rest & Hcr & Hc).
  assert (Hsign : take_sign
                    ((if neg then ["-"%char] else []) ++ ip ++ "."%char :: fp)
                  = (neg, ip ++ "."%char :: fp)).
  { destruct neg; [reflexivity |]. simpl. rewrite Hcr.
    apply take_sign_unsigned;
      destruct Hc as [Hc | ->]; try reflexivity; now apply digit_not_char. }
  rewrite Hsign. cbv beta iota zeta.
  assert (Hlow : lower c = c)
    by (destruct Hc as [Hc | ->]; [now apply digit_lower | reflexivity]).
  assert (Hi : Ascii.eqb c "i" = false)
    by (destruct Hc as [Hc | ->]; [now apply digit_not_char | reflexivity]).
  assert (Hn : Ascii.eqb c "n" = false)
    by (destruct Hc as [Hc | ->]; [now apply digit_not_char | reflexivity]).
  assert (Hword : forall w : string,
             (w = "inf" \/ w = "infinity" \/ w = "nan")%string ->
             String.eqb
               (string_of_list_ascii (map lower (ip ++ "."%char :: fp))) w
             = false).
  { intros w Hw. rewrite Hcr. cbn [map string_of_list_ascii]. rewrite Hlow.
    destruct Hw as [-> | [-> | ->]]; cbn [String.eqb];
      rewrite ?Hi, ?Hn; reflexivity. }
  rewrite !Hword by tauto. cbn [orb].
  rewrite (span_digits_app ip ("."%char :: fp) Hip) by reflexivity.
  cbv beta iota zeta. rewrite Ascii.eqb_refl.
  rewrite (span_digits_all fp Hfp). cbv beta iota zeta.
  destruct (ip ++ fp) as [| d ds] eqn:E; [congruence |].
  rewrite <- E. reflexivity.
Qed.

(** X5.  A plain decimal number, written with a decimal comma or a
    decimal point, with an optional minus sign and with any number of
    spaces put anywhere in it, parses to the real number its digits
    denote: the integer its digits spell, divided by ten to the number of
    digits behind the separator. *)
Theorem decimal_text_value (neg : bool) (ip fp : list ascii) (sep : ascii)
        (s : string) :
  sep = ","%char \/ sep = "."%char ->
  Forall (fun c => is_digit c = true) ip ->
  Forall (fun c => is_digit c = true) fp ->
  ip ++ fp <> [] ->
  remove_char " " s
    = string_of_list_ascii
        ((if neg then ["-"%char] else []) ++ ip ++ sep :: fp) ->
  parse_value s
    = CFloat (Fin (let v := (IZR (digits_value (ip ++ fp))
                             / 10 ^ List.length fp)%R in
                   if neg then (- v)%R else v)).
Proof.
  intros Hsep Hip Hfp Hne Hs.
  set (l := (if neg then ["-"%char] else []) ++ ip ++ sep :: fp) in *.
  assert (Hin : In sep l).
  { unfold l. apply in_or_app. right. apply in_or_app. right. now left. }
  assert (Hl : list_ascii_of_string (remove_char " " s) = l)
    by (rewrite Hs; apply list_ascii_of_string_of_list_ascii).
  assert (Hnc : String.eqb s "NC" = false).
  { apply String.eqb_neq. intros ->. rewrite <- Hl in Hin. simpl in Hin.
    destruct Hsep; subst sep; intuition discriminate. }
  assert (Hdash : String.eqb s "-" = false).
  { apply String.eqb_neq. intros ->. rewrite <- Hl in Hin. simpl in Hin.
    destruct Hsep; subst sep; intuition discriminate. }
  unfold parse_value. rewrite Hnc, Hdash. cbn [orb]. rewrite Hs.
  assert (Hclean : replace_char "," "." (string_of_list_ascii l)
                   = string_of_list_ascii
                       ((if neg then ["-"%char] else [])
                          ++ ip ++ "."%char :: fp)).
  { rewrite replace_char_list. f_equal. unfold l.
    rewrite !map_app. cbn [map].
    rewrite (map_unchanged _ ip), (map_unchanged _ fp).
    - f_equal; [destruct neg; reflexivity |]. f_equal. f_equal.
      destruct Hsep; subst sep; reflexivity.
    - eapply Forall_impl; [| exact Hfp]. intros c Hc.
      now rewrite (digit_not_char c ","%char).
    - eapply Forall_impl; [| exact Hip]. intros c Hc.
      now rewrite (digit_not_char c ","%char). }
  rewrite Hclean.
  rewrite contains_char_In
    by (apply in_or_app; right; apply in_or_app; right; now left).
  rewrite py_float_decimal by assumption.
  cbv zeta. unfold np_of_py, xmap. do 2 f_equal.
  destruct neg; [rewrite Q2R_opp |]; now rewrite Q2R_scale10.
Qed.

End PlainNumbers.

Lemma integer_text_round_trip_witness : parse_value "5 000" = CInt 5000.
Proof. exact (integer_text_round_trip 5000 "5 000" eq_refl). Defined.

Lemma decimal_text_value_witness :
  parse_value "-1 234,56"
  = CFloat (Fin (let v := (IZR (PyStr.digits_value
                                  (["1"; "2"; "3"; "4"] ++ ["5"; "6"])%char)
                           / 10 ^ List.length ["5"; "6"]%char)%R in
                 if true then (- v)%R else v)).
Proof.
  apply (decimal_text_value true ["1"; "2"; "3"; "4"]%char ["5"; "6"]%char
           ","%char "-1 234,56").
  - now left.
  - repeat constructor.
  - repeat constructor.
  - discriminate.
  - reflexivity.
Defined.

(** ** The rows [scrape] keeps *)

Section Scrape.

Import Engine.

(** X6.  Of the rows of the table, [scrape] skips those without cells,
    drops the first of the others as the header, and turns every
    remaining row into one record, in order: the cells of the row, each
    parsed.  The test on the number of rows changes nothing. *)
Theorem scrape_rows_records (rows : list (list string)) :
  scrape_rows (Some rows)
  = map (map parse_value)
        (tl (filter (fun cols_text =>
                       match cols_text with [] => false | _ => true end)
                    rows)).
Proof.
  unfold scrape_rows.
  assert (E : flat_map (fun cols_text : list string =>
                          match cols_text with
                          | [] => []
                          | _ => [map parse_value cols_text]
                          end) rows
              = map (map parse_value)
                    (filter (fun cols_text =>
                               match cols_text with
                               | [] => false
                               | _ => true
                               end) rows)).
  { induction rows as [| r rows IH]; simpl; [reflexivity |].
    destruct r; simpl; now rewrite IH. }
  rewrite E.
  destruct (filter _ rows) as [| a [| b m]]; reflexivity.
Qed.

End Scrape.

(** ** What the scores depend on *)

Section Frame.

Import Mat Engine.

Variable pca_project : array2 -> list R -> R.

(** Two records agree in the cells 2 to 10. *)
Lemma features_frame (r r' : record) :
  (forall i, (2 <= i <= 10)%nat -> nth_error r i = nth_error r' i) ->
  features r = features r'.
Proof.
  intros H. unfold features, getitem.
  rewrite (H 2%nat), (H 3%nat), (H 4%nat), (H 5%nat), (H 6%nat), (H 7%nat),
    (H 8%nat), (H 9%nat), (H 10%nat) by lia.
  reflexivity.
Qed.

Lemma prepare_frame (m m' : list record) :
  Forall2 (fun r r' =>
             forall i, (2 <= i <= 10)%nat -> nth_error r i = nth_error r' i)
          m m' ->
  prepare m = prepare m'.
Proof.
  intros H. unfold prepare.
  replace (mapM features m') with (mapM features m); [reflexivity |].
  induction H as [| r r' m m' Hr _ IH]; simpl; [reflexivity |].
  now rewrite (features_frame r r' Hr), IH.
Qed.

(** X7.  The scores depend on nothing but the cells 2 to 10 of the
    records: two inputs whose records agree there, one by one, get the
    same feature matrix and the same composite scores, or fail with the
    same exception.  The identifier, the company name and any cell
    behind position 10 have no influence. *)
Theorem scores_depend_on_features (m m' : list record) :
  Forall2 (fun r r' =>
             forall i, (2 <= i <= 10)%nat -> nth_error r i = nth_error r' i)
          m m' ->
  prepare m = prepare m' /\
  scores pca_project m = scores pca_project m'.
Proof.
  intros H. pose proof (prepare_frame m m' H) as Hp.
  split; [exact Hp |]. unfold scores. now rewrite Hp.
Qed.

Lemma scored_rows_frame (m : list record) (X Xs : array2)
      (final : list npfloat) :
  prepare m = Ok (X, Xs) -> List.length final = List.length m ->
  Forall2 (fun r r' =>
             forall i, (2 <= i <= 10)%nat -> nth_error r i = nth_error r' i)
          m (append_scores m final).
Proof.
  intros Hp Hlen.
  destruct (prepare_inv _ _ _ Hp) as (Hrows & _).
  pose proof (append_scores_rows m final Hlen) as Happ.
  assert (Hlong : Forall (fun r => (10 < List.length r)%nat) m).
  { clear Happ Hlen Hp.
    induction Hrows as [| r x m X Hr _ IH]; constructor; auto.
    destruct Hr as [fv [Hfv _]]. apply features_inv in Hfv.
    destruct Hfv as (c2 & c3 & c4 & c5 & c6 & c7 & c8 & c9 & c10 & Hfv).
    destruct Hfv as (_ & _ & _ & _ & _ & _ & _ & _ & E10 & _).
    apply nth_error_Some. congruence. }
  clear Hp Hrows Hlen.
  induction Happ as [| r r' m m' [s ->] _ IH]; constructor.
  - inversion Hlong; subst. intros i Hi.
    symmetry. apply nth_error_app1. lia.
  - inversion Hlong; subst. auto.
Qed.

(** X8.  [analyze] appends the score to the very rows it was given.
    Scoring those rows once more gives the same composite scores: the
    cell appended by the first call is not read by the second. *)
Theorem scores_of_scored_rows (m : list record) (final : list npfloat) :
  scores pca_project m = Ok final ->
  scores pca_project (append_scores m final) = Ok final.
Proof.
  intros Hs. pose proof (scores_length pca_project _ _ Hs) as Hlen.
  assert (Hp : exists X Xs, prepare m = Ok (X, Xs)).
  { unfold scores in Hs.
    destruct (prepare m) as [[X Xs] |]; [eauto | discriminate]. }
  destruct Hp as (X & Xs & Hp).
  pose proof (prepare_frame _ _ (scored_rows_frame m X Xs final Hp Hlen)) as E.
  unfold scores in *. now rewrite <- E.
Qed.

End Frame.

Lemma scores_depend_on_features_witness :
  Engine.prepare [Sample.alpha]
    = Engine.prepare
        [[CInt 7; CText "OMEGA"; CInt 100; CInt 0; CFloat (Fin 1.5%R);
          CInt 2; CInt 3; CInt 10; CInt 4; CInt 50; CInt 5000;
          CText "extra"]] /\
  Engine.scores Sample.no_pca [Sample.alpha]
    = Engine.scores Sample.no_pca
        [[CInt 7; CText "OMEGA"; CInt 100; CInt 0; CFloat (Fin 1.5%R);
          CInt 2; CInt 3; CInt 10; CInt 4; CInt 50; CInt 5000;
          CText "extra"]].
Proof.
  apply (scores_depend_on_features Sample.no_pca).
  constructor; [| constructor].
  intros i Hi.
  do 11 (destruct i as [| i]; [try lia; reflexivity |]). lia.
Defined.

Lemma scores_of_scored_rows_witness :
  Engine.scores Sample.no_pca (Engine.append_scores [Sample.alpha] [NaN])
    = Ok [NaN].
Proof.
  exact (scores_of_scored_rows Sample.no_pca [Sample.alpha] [NaN]
           (scores_alpha Sample.no_pca)).
Defined.

(** ** The Score Combiner, case by case *)

Section CombinerCases.

Import Mat Engine.

Local Open Scope R_scope.

Variable pca_project : array2 -> list R -> R.

Lemma rescale_below_one (l : list R) (x : R) :
  In x l -> 0 <= rescale l x < 1.
Proof.
  intros Hx. split; [apply (rescale_range l x Hx) |].
  unfold rescale.
  pose proof (lmin_le l x Hx). pose proof (lmax_ge l x Hx).
  assert (Hpos : 0 < lmax l - lmin l + 1e-9) by lra.
  apply (Rmult_lt_reg_r (lmax l - lmin l + 1e-9)); [exact Hpos |].
  unfold Rdiv. rewrite Rmult_assoc, Rinv_l by lra. lra.
Qed.

Lemma rescale_min (l : list R) : rescale l (lmin l) = 0.
Proof. unfold rescale, Rdiv. rewrite Rminus_diag. apply Rmult_0_l. Qed.

Lemma rescale_mono (l : list R) (a b : R) :
  (a <= b -> rescale l a <= rescale l b) /\
  (a < b -> rescale l a < rescale l b).
Proof.
  pose proof (lmin_le_lmax l).
  assert (Hinv : 0 < / (lmax l - lmin l + 1e-9))
    by (apply Rinv_0_lt_compat; lra).
  unfold rescale, Rdiv. split; intros Hab.
  - apply Rmult_le_compat_r; lra.
  - apply Rmult_lt_compat_r; lra.
Qed.

(** X9.  [normalize] on an array of finite scores raises nothing and
    keeps the length; every entry of the result is at least 0 and
    strictly below 1, a least score becomes 0, and the order of the
    scores is kept, ties included. *)
Theorem normalize_of_finite (l : list R) :
  l <> [] ->
  exists out,
    normalize (map Fin l) = Ok (map Fin out) /\
    List.length out = List.length l /\
    (forall i a, nth_error l i = Some a ->
       exists a', nth_error out i = Some a' /\ 0 <= a' < 1 /\
                  (a = lmin l -> a' = 0)) /\
    (forall i j a b a' b',
       nth_error l i = Some a -> nth_error l j = Some b ->
       nth_error out i = Some a' -> nth_error out j = Some b' ->
       (a <= b -> a' <= b') /\ (a < b -> a' < b')).
Proof.
  intros Hne. exists (map (rescale l) l).
  split; [now apply normalize_fin |].
  split; [apply length_map |].
  split.
  - intros i a Ha. exists (rescale l a).
    split; [now apply map_nth_error |].
    split; [apply rescale_below_one; eapply nth_error_In; eassumption |].
    intros ->. apply rescale_min.
  - intros i j a b a' b' Ha Hb Ha' Hb'.
    rewrite (map_nth_error (rescale l) i l Ha) in Ha'.
    rewrite (map_nth_error (rescale l) j l Hb) in Hb'.
    injection Ha' as <-. injection Hb' as <-. apply rescale_mono.
Qed.

(** X10.  [normalize] raises [ValueError] on an array without entries,
    and a single NaN in the array turns every entry of the result into
    NaN. *)
Theorem normalize_of_empty_or_nan :
  normalize [] = Raise ValueError /\
  forall arr, In NaN arr ->
    normalize arr = Ok (repeat NaN (List.length arr)).
Proof.
  split; [reflexivity |].
  intros arr H. rewrite (normalize_nan arr H). f_equal.
  apply map_const_repeat.
Qed.

Lemma columns_alike_or_not (X : array2) (n : nat) :
  (forall j, (j < n)%nat -> lmax (column j X) = lmin (column j X)) \/
  (exists j, (j < n)%nat /\ lmax (column j X) <> lmin (column j X)).
Proof.
  induction n as [| n [IH | [j [Hj Hd]]]].
  - left. intros j Hj. lia.
  - destruct (Req_dec_T (lmax (column n X)) (lmin (column n X))) as [E | D].
    + left. intros j Hj.
      destruct (Nat.eq_dec j n) as [-> | Hn]; [exact E | apply IH; lia].
    + right. exists n. split; [lia | exact D].
  - right. exists j. split; [lia | exact Hd].
Qed.

Lemma scores_of_distinct (matrix : list record) (X Xs : array2) (j : nat) :
  prepare matrix = Ok (X, Xs) -> (j < 9)%nat ->
  lmax (column j X) <> lmin (column j X) ->
  exists ts,
    scores pca_project matrix =
      Ok (final_score
            (map Fin (map (rescale (pca_scores pca_project Xs))
                          (pca_scores pca_project Xs)))
            (map Fin (map (rescale ts) ts))
            (map Fin (map (rescale (weighted_scores X Xs))
                          (weighted_scores X Xs)))).
Proof.
  intros Hp Hj Hcol.
  destruct (prepare_inv _ _ _ Hp) as (Hrows & Hrect & Hne & Hfit).
  destruct (prepare_length _ _ _ Hp) as [HX HXs].
  destruct (scaled_column_not_constant X Xs j Hne Hrect Hfit Hj Hcol)
    as (HneXs & HrXs & HcXs).
  destruct (topsis_scores_unit Xs j HneXs HrXs Hj HcXs) as (ts & Hts & Hlts).
  assert (Hpos : (0 < List.length matrix)%nat).
  { rewrite <- HX. destruct X; [congruence | simpl; lia]. }
  exists ts.
  rewrite (scores_unfold _ _ _ _ Hp), Hts. cbn [bind].
  rewrite !normalize_fin; [reflexivity | | |].
  - apply (length_nonempty _ (List.length matrix)); [| exact Hpos].
    rewrite weighted_scores_length; congruence.
  - apply (length_nonempty _ (List.length matrix)); [congruence | exact Hpos].
  - apply (length_nonempty _ (List.length matrix)); [| exact Hpos].
    unfold pca_scores. now rewrite length_map.
Qed.

Lemma final_score_below_one (p t w : list R) :
  Forall (fun s => exists v, s = Fin v /\ 0 <= v < 1)
    (final_score (map Fin (map (rescale p) p)) (map Fin (map (rescale t) t))
                 (map Fin (map (rescale w) w))).
Proof.
  rewrite final_score_fin. apply Forall_forall. intros s Hs.
  apply in_map_iff in Hs as [[[a b] c] [<- Hin]]. simpl.
  pose proof (in_combine_r _ _ _ _ Hin) as Hc.
  apply in_combine_l in Hin.
  pose proof (in_combine_r _ _ _ _ Hin) as Hb.
  apply in_combine_l in Hin.
  apply in_map_iff in Hin as [x [<- Hx]].
  apply in_map_iff in Hb as [y [<- Hy]].
  apply in_map_iff in Hc as [z [<- Hz]].
  pose proof (rescale_below_one p x Hx).
  pose proof (rescale_below_one t y Hy).
  pose proof (rescale_below_one w z Hz).
  eexists. split; [reflexivity | lra].
Qed.

Lemma scores_of_alike (matrix : list record) (X Xs : array2) :
  prepare matrix = Ok (X, Xs) ->
  (forall j, (j < 9)%nat -> lmax (column j X) = lmin (column j X)) ->
  scores pca_project matrix = Ok (repeat NaN (List.length matrix)).
Proof.
  intros Hp Hconst.
  destruct (prepare_inv _ _ _ Hp) as (Hrows & Hrect & Hne & Hfit).
  destruct (prepare_length _ _ _ Hp) as [HX HXs].
  pose proof (constant_columns_scaled X Xs Hne Hrect Hfit Hconst) as HXs0.
  rewrite HX in HXs0.
  destruct (List.length matrix) as [| n] eqn:Hn.
  { destruct X; [congruence | discriminate]. }
  rewrite (scores_unfold _ _ _ _ Hp).
  rewrite HXs0 at 1. rewrite topsis_scores_zero_rows. cbn [bind].
  destruct (normalize_succeeds (map Fin (pca_scores pca_project Xs)))
    as [pn E1].
  { unfold pca_scores. rewrite HXs0. discriminate. }
  rewrite E1. cbn [bind]. rewrite normalize_nans. cbn [bind].
  destruct (normalize_succeeds (map Fin (weighted_scores X Xs))) as [wn E3].
  { intros E. apply (f_equal (@List.length _)) in E.
    rewrite length_map, weighted_scores_length in E by congruence.
    simpl in E. congruence. }
  rewrite E3. cbn [bind]. f_equal.
  apply normalize_length in E1, E3.
  unfold pca_scores in E1. rewrite !length_map in E1.
  rewrite length_map, weighted_scores_length in E3 by congruence.
  apply final_score_nan; congruence.
Qed.

(** X11.  The composite scores of a run are of one kind.  Either all
    records share one feature vector, and every composite score is NaN;
    or some feature differs between records, and every composite score
    is a finite value at least 0 and strictly below 1.  A score of
    exactly 1 does not occur. *)
Theorem composite_scores_all_or_none (matrix : list record) (X Xs : array2)
        (final : list npfloat) :
  prepare matrix = Ok (X, Xs) ->
  scores pca_project matrix = Ok final ->
  ((forall j, (j < 9)%nat -> lmax (column j X) = lmin (column j X)) /\
   final = repeat NaN (List.length matrix)) \/
  ((exists j, (j < 9)%nat /\ lmax (column j X) <> lmin (column j X)) /\
   Forall (fun s => exists v, s = Fin v /\ 0 <= v < 1) final).
Proof.
  intros Hp Hs.
  destruct (columns_alike_or_not X 9) as [Halike | [j [Hj Hd]]].
  - left. split; [exact Halike |].
    rewrite (scores_of_alike _ _ _ Hp Halike) in Hs. now injection Hs.
  - right. split; [now exists j |].
    destruct (scores_of_distinct _ _ _ j Hp Hj Hd) as [ts Hts].
    rewrite Hts in Hs. injection Hs as <-.
    apply final_score_below_one.
Qed.

End CombinerCases.

Lemma normalize_of_finite_witness :
  exists out,
    Engine.normalize (map Fin [3; 1; 2]%R) = Ok (map Fin out) /\
    List.length out = 3%nat /\
    (forall i a, nth_error [3; 1; 2]%R i = Some a ->
       exists a', nth_error out i = Some a' /\ (0 <= a' < 1)%R /\
                  (a = Mat.lmin [3; 1; 2]%R -> a' = 0%R)) /\
    (forall i j a b a' b',
       nth_error [3; 1; 2]%R i = Some a ->
       nth_error [3; 1; 2]%R j = Some b ->
       nth_error out i = Some a' -> nth_error out j = Some b' ->
       (a <= b -> a' <= b')%R /\ (a < b -> a' < b')%R).
Proof.
  apply (normalize_of_finite [3; 1; 2]%R). discriminate.
Defined.

Lemma composite_scores_all_or_none_witness :
  ((forall j, (j < 9)%nat ->
      Mat.lmax (Mat.column j [Sample.alpha_features])
      = Mat.lmin (Mat.column j [Sample.alpha_features])) /\
   [@NaN R] = repeat NaN 1) \/
  ((exists j, (j < 9)%nat /\
      Mat.lmax (Mat.column j [Sample.alpha_features])
      <> Mat.lmin (Mat.column j [Sample.alpha_features])) /\
   Forall (fun s => exists v, s = Fin v /\ (0 <= v < 1)%R) [@NaN R]).
Proof.
  exact (composite_scores_all_or_none Sample.no_pca [Sample.alpha]
           [Sample.alpha_features] [Sample.zero_row] [NaN]
           prepare_alpha (scores_alpha Sample.no_pca)).
Defined.

(** ** The P/E penalty and the range of the Weighted-Penalty score *)

Section Penalty.

Import Mat Engine.

Local Open Scope R_scope.

Lemma exp_neg_inv (x : R) : exp x * exp (- x) = 1.
Proof. rewrite <- exp_plus, Rplus_opp_r. apply exp_0. Qed.

Lemma cosh_pos (x : R) : 0 < cosh x.
Proof.
  unfold cosh. pose proof (exp_pos x). pose proof (exp_pos (- x)). lra.
Qed.

Lemma tanh_bounds (x : R) : -1 < tanh x < 1.
Proof.
  unfold tanh. pose proof (cosh_pos x) as Hc.
  assert (Hs : - cosh x < sinh x < cosh x).
  { unfold sinh, cosh. pose proof (exp_pos x). pose proof (exp_pos (- x)).
    lra. }
  split.
  - apply (Rmult_lt_reg_r (cosh x)); [exact Hc |].
    unfold Rdiv. rewrite Rmult_assoc, Rinv_l by lra. lra.
  - apply (Rmult_lt_reg_r (cosh x)); [exact Hc |].
    unfold Rdiv. rewrite Rmult_assoc, Rinv_l by lra. lra.
Qed.





Lemma dot_weights_range (xs : list R) :
  List.length xs = 9%nat -> Forall (fun v => 0 <= v <= 1) xs ->
  -0.8 <= dot xs weights <= 1.
Proof.
  intros Hlen H.
  do 9 (destruct xs as [| ? xs]; [discriminate |]).
  destruct xs; [| discriminate].
  repeat match goal with
         | H : Forall _ (_ :: _) |- _ => inversion H; subst; clear H
         end.
  unfold dot, weights, sum. simpl. lra.
Qed.

(** The scaled matrix of the Normalizer has its entries in [0, 1]. *)
Lemma scaled_rows_unit (X Xs : array2) :
  X <> [] -> rect 9 X -> fit_transform X = Ok (X, Xs) ->
  Forall (fun xs => List.length xs = 9%nat /\
                    Forall (fun v => 0 <= v <= 1) xs) Xs.
Proof.
  intros Hne Hrect Hfit.
  destruct (fit_transform_columns 9 X Hne Hrect) as (Xs' & E & Hlen & Hr & Hc).
  rewrite Hfit in E. injection E as <-.
  apply Forall_forall. intros xs Hxs.
  unfold rect in Hr. rewrite Forall_forall in Hr.
  pose proof (Hr xs Hxs) as Hl. split; [exact Hl |].
  apply Forall_forall. intros v Hv.
  destruct (In_nth xs v 0 Hv) as (j & Hj & <-).
  rewrite Hl in Hj.
  assert (Hin : In (nth j xs 0) (column j Xs))
    by (unfold column; apply in_map_iff; eauto).
  rewrite (Hc j Hj) in Hin.
  apply in_map_iff in Hin as [u [<- Hu]].
  apply scale_value_range. split; [now apply lmin_le | now apply lmax_ge].
Qed.

(** X13.  In a run of the engine the Weighted-Penalty score of every
    record lies between -1.8 and 2, the ends included: the weighted sum
    of its scaled features lies between -0.8 and 1, and the penalty
    between -1 and 1.  The ends are not left out, because the tangent
    of a binary64 argument is exactly 1 or -1 for a P/E of about 955 or
    more in size. *)
Theorem weighted_scores_range (matrix : list record) (X Xs : array2) :
  prepare matrix = Ok (X, Xs) ->
  Forall (fun xs => -0.8 <= dot xs weights <= 1) Xs /\
  Forall (fun w => -1.8 <= w <= 2) (weighted_scores X Xs).
Proof.
  intros Hp.
  destruct (prepare_inv _ _ _ Hp) as (Hrows & Hrect & Hne & Hfit).
  pose proof (scaled_rows_unit X Xs Hne Hrect Hfit) as Hunit.
  assert (Hdot : Forall (fun xs => -0.8 <= dot xs weights <= 1) Xs).
  { eapply Forall_impl; [| exact Hunit].
    intros xs [Hl Hu]. now apply dot_weights_range. }
  split; [exact Hdot |].
  apply Forall_forall. intros w Hw.
  unfold weighted_scores in Hw.
  apply in_map_iff in Hw as [[d p] [<- Hin]]. simpl.
  pose proof (in_combine_l _ _ _ _ Hin) as Hd.
  pose proof (in_combine_r _ _ _ _ Hin) as Hpen.
  apply in_map_iff in Hd as [xs [<- Hxs]].
  apply in_map_iff in Hpen as [pe [<- _]].
  rewrite Forall_forall in Hdot. pose proof (Hdot xs Hxs).
  pose proof (tanh_bounds (pe / 50)). lra.
Qed.

End Penalty.


Lemma weighted_scores_range_witness :
  Forall (fun xs => (-0.8 <= Mat.dot xs Engine.weights <= 1)%R)
         [Sample.zero_row] /\
  Forall (fun w => (-1.8 <= w <= 2)%R)
         (Engine.weighted_scores [Sample.alpha_features] [Sample.zero_row]).
Proof.
  exact (weighted_scores_range [Sample.alpha] [Sample.alpha_features]
           [Sample.zero_row] prepare_alpha).
Defined.

(** ** Reading the Ideal-Point score *)

Section IdealPointOrder.

Import Mat Engine.

Local Open Scope R_scope.

Lemma topsis_record_value (x best worst : list R) :
  List.length x = List.length best -> List.length x = List.length worst ->
  best <> worst ->
  0 < dist x best + dist x worst /\
  topsis_score (dist x best) (dist x worst)
  = Fin (dist x worst / (dist x best + dist x worst)).
Proof.
  intros Hb Hw Hdiff.
  pose proof (dist_nonneg x best) as Hdb.
  pose proof (dist_nonneg x worst) as Hdw.
  assert (Hsum : dist x best + dist x worst <> 0).
  { intros E. apply Hdiff.
    rewrite <- (dist_zero x best Hb) by lra.
    apply (dist_zero x worst Hw). lra. }
  split; [lra |].
  now apply topsis_score_finite.
Qed.

(** X14.  In a scaled matrix of nine columns with a column that is not
    constant, a record scores above one half exactly when it is nearer
    to the ideal-best point than to the ideal-worst point, and exactly
    one half when it is as near to the one as to the other.  Of two
    records, the one that is no farther from the ideal-best point and no
    nearer to the ideal-worst point has the score that is not lower. *)
Theorem topsis_score_order (Xs : array2) :
  Xs <> [] -> rect 9 Xs ->
  (exists j, (j < 9)%nat /\ lmax (column j Xs) <> lmin (column j Xs)) ->
  exists best worst ss,
    ideal_points Xs = Ok (best, worst) /\
    topsis_scores Xs = Ok ss /\
    (forall i x, nth_error Xs i = Some x ->
       exists s, nth_error ss i = Some (Fin s) /\
                 (1 / 2 < s <-> dist x best < dist x worst) /\
                 (s = 1 / 2 <-> dist x best = dist x worst)) /\
    (forall i k x y s t,
       nth_error Xs i = Some x -> nth_error Xs k = Some y ->
       nth_error ss i = Some (Fin s) -> nth_error ss k = Some (Fin t) ->
       dist x best <= dist y best -> dist y worst <= dist x worst ->
       t <= s).
Proof.
  intros Hne Hrect [j [Hj Hcol]].
  destruct (ideal_points_differ Xs j Hne Hrect Hj Hcol)
    as (best & worst & Hip & Hlb & Hlw & Hdiff).
  exists best, worst. eexists.
  split; [exact Hip |].
  split; [exact (topsis_scores_eq _ _ _ Hip) |].
  assert (Hrow : forall i x, nth_error Xs i = Some x ->
            0 < dist x best + dist x worst /\
            nth_error
              (map (fun x => topsis_score (dist x best) (dist x worst)) Xs) i
            = Some (Fin (dist x worst / (dist x best + dist x worst)))).
  { intros i x Hx.
    assert (Hlen : List.length x = 9%nat).
    { unfold rect in Hrect. rewrite Forall_forall in Hrect.
      eapply Hrect, nth_error_In, Hx. }
    destruct (topsis_record_value x best worst) as [Hpos Hs];
      [congruence | congruence | exact Hdiff |].
    split; [exact Hpos |].
    rewrite (map_nth_error _ i Xs Hx). now rewrite Hs. }
  split.
  - intros i x Hx. destruct (Hrow i x Hx) as [Hpos Hs].
    eexists. split; [exact Hs |].
    pose proof (dist_nonneg x best). pose proof (dist_nonneg x worst).
    set (db := dist x best) in *. set (dw := dist x worst) in *.
    assert (E : dw / (db + dw) - 1 / 2 = (dw - db) / (2 * (db + dw)))
      by (field; lra).
    assert (Hden : 0 < / (2 * (db + dw)))
      by (apply Rinv_0_lt_compat; lra).
    split; split; intros Hc.
    + assert (0 < (dw - db) / (2 * (db + dw))) by lra.
      unfold Rdiv in *. nra.
    + assert (0 < (dw - db) / (2 * (db + dw)))
        by (unfold Rdiv; apply Rmult_lt_0_compat; lra).
      lra.
    + assert ((dw - db) / (2 * (db + dw)) = 0) by lra.
      unfold Rdiv in *. nra.
    + assert ((dw - db) / (2 * (db + dw)) = 0)
        by (unfold Rdiv; replace (dw - db) with 0 by lra; apply Rmult_0_l).
      lra.
  - intros i k x y s t Hx Hy Hs Ht Hbest Hworst.
    destruct (Hrow i x Hx) as [Hpx Hsx].
    destruct (Hrow k y Hy) as [Hpy Hsy].
    rewrite Hsx in Hs. rewrite Hsy in Ht.
    injection Hs as <-. injection Ht as <-.
    pose proof (dist_nonneg x best). pose proof (dist_nonneg x worst).
    pose proof (dist_nonneg y best). pose proof (dist_nonneg y worst).
    set (a := dist x best) in *. set (b := dist x worst) in *.
    set (c := dist y best) in *. set (d := dist y worst) in *.
    assert (E : b / (a + b) - d / (c + d)
                = (b * c - a * d) / ((a + b) * (c + d)))
      by (field; lra).
    assert (Hnum : 0 <= b * c - a * d) by nra.
    assert (Hden : 0 < / ((a + b) * (c + d)))
      by (apply Rinv_0_lt_compat, Rmult_lt_0_compat; lra).
    assert (0 <= (b * c - a * d) / ((a + b) * (c + d)))
      by (unfold Rdiv; apply Rmult_le_pos; lra).
    lra.
Qed.

End IdealPointOrder.

Lemma topsis_score_order_witness :
  exists best worst ss,
    Engine.ideal_points [Sample.zero_row; Sample.one_row] = Ok (best, worst) /\
    Engine.topsis_scores [Sample.zero_row; Sample.one_row] = Ok ss /\
    (forall i x, nth_error [Sample.zero_row; Sample.one_row] i = Some x ->
       exists s, nth_error ss i = Some (Fin s) /\
                 (1 / 2 < s <-> Mat.dist x best < Mat.dist x worst)%R /\
                 (s = (1 / 2)%R <-> Mat.dist x best = Mat.dist x worst)) /\
    (forall i k x y s t,
       nth_error [Sample.zero_row; Sample.one_row] i = Some x ->
       nth_error [Sample.zero_row; Sample.one_row] k = Some y ->
       nth_error ss i = Some (Fin s) -> nth_error ss k = Some (Fin t) ->
       (Mat.dist x best <= Mat.dist y best)%R ->
       (Mat.dist y worst <= Mat.dist x worst)%R ->
       (t <= s)%R).
Proof.
  apply (topsis_score_order [Sample.zero_row; Sample.one_row]).
  - discriminate.
  - repeat constructor.
  - exists 0%nat. split; [lia |]. simpl.
    unfold Rmax, Rmin. destruct (Rle_dec 0 1); lra.
Defined.

(** ** The order of records whose scores are NaN *)

Section NanOrder.

Import Mat Engine.

Variable pca_project : array2 -> list R -> R.

Lemma ltb_nan_r (x : npfloat) : Np.ltb x NaN = false.
Proof. now destruct x. Qed.

Lemma sort_asc_nan {A : Type} (k : A -> npfloat) (l : list A) :
  Forall (fun x => k x = NaN) l -> PySort.sort_asc k l = l.
Proof.
  induction 1 as [| x l Hx _ IH]; simpl; [reflexivity |].
  rewrite IH. destruct l as [| y l]; simpl; [reflexivity |].
  now rewrite Hx, ltb_nan_r.
Qed.

Lemma sorted_reverse_nan {A : Type} (k : A -> npfloat) (l : list A) :
  Forall (fun x => k x = NaN) l -> PySort.sorted_reverse k l = l.
Proof.
  intros H. unfold PySort.sorted_reverse.
  rewrite sort_asc_nan by now apply Forall_rev.
  apply rev_involutive.
Qed.

(** X15.  When all records share one feature vector, the engine
    returns the records in the order it was given them, each with NaN
    appended: with NaN for every key the sort moves nothing. *)
Theorem alike_records_keep_order (matrix : list record) (X Xs : array2) :
  prepare matrix = Ok (X, Xs) ->
  (forall j, (j < 9)%nat -> lmax (column j X) = lmin (column j X)) ->
  analyze pca_project matrix
  = Ok (map (fun row => row ++ [CFloat NaN]) matrix).
Proof.
  intros Hp Hconst. unfold analyze.
  rewrite (scores_of_alike pca_project _ _ _ Hp Hconst). cbn [bind].
  assert (E : append_scores matrix (repeat NaN (List.length matrix))
              = map (fun row => row ++ [CFloat NaN]) matrix).
  { unfold append_scores. clear Hp.
    induction matrix as [| r m IH]; simpl; [reflexivity | now rewrite IH]. }
  rewrite E. f_equal. apply sorted_reverse_nan.
  apply Forall_forall. intros r Hr.
  apply in_map_iff in Hr as [row [<- _]]. apply key_append.
Qed.

End NanOrder.

Lemma alike_records_keep_order_witness :
  Engine.analyze Sample.no_pca [Sample.alpha; Sample.alpha_twin]
  = Ok (map (fun row => row ++ [CFloat NaN]) [Sample.alpha; Sample.alpha_twin]).
Proof.
  destruct (fit_transform_columns 9
              [Sample.alpha_features; Sample.alpha_features])
    as (Xs & Hfit & _); [discriminate | repeat constructor |].
  apply (alike_records_keep_order Sample.no_pca
           [Sample.alpha; Sample.alpha_twin]
           [Sample.alpha_features; Sample.alpha_features] Xs).
  - unfold Engine.prepare. cbn [mapM]. rewrite features_alpha.
    replace (Engine.features Sample.alpha_twin)
      with (Engine.features Sample.alpha) by reflexivity.
    rewrite features_alpha.
    cbn [bind]. unfold Engine.np_array.
    cbn [mapM Engine.to_float bind Engine.check_array Engine.finite].
    exact Hfit.
  - intros j Hj.
    do 9 (destruct j as [| j];
          [simpl; unfold Rmax, Rmin; destruct (Rle_dec _ _); reflexivity |]).
    lia.
Defined.

(** ** The signals of [ScrapingThread.run] *)

Section ThreadSignals.

Import Mat Engine Gui.

Variable pca_project : array2 -> list R -> R.

Lemma analyze_output_nonempty (matrix out : list record) :
  analyze pca_project matrix = Ok out ->
  matrix <> [] /\ out <> [] /\ List.length out = List.length matrix.
Proof.
  intros H.
  destruct (analyze_inv pca_project _ _ H)
    as (X & Xs & final & Hp & Hs & Hlen & ->).
  destruct (prepare_inv _ _ _ Hp) as (Hrows & _ & Hne & _).
  apply Forall2_length in Hrows.
  assert (Hm : matrix <> []).
  { intros ->. destruct X; [congruence | discriminate]. }
  assert (Hl : List.length
                 (PySort.sorted_reverse key (append_scores matrix final))
               = List.length matrix).
  { rewrite <- (Permutation_length (sorted_reverse_perm key _)).
    now apply append_scores_length. }
  split; [exact Hm |]. split; [| exact Hl].
  intros E. rewrite E in Hl. destruct matrix; [congruence | discriminate].
Qed.

(** X16.  A run of the thread emits progress values and then exactly
    one closing signal, [finished] or [error].  The progress values
    start at 20 and rise strictly; 100 is among them exactly when the
    closing signal is [finished], which carries what [analyze] returned
    for the records of [scrape].  An exception of the request is
    reported after the progress value 20 alone, an exception of the
    engine after 20, 60 and 80. *)
Theorem run_protocol (page : fetched) :
  exists ps last,
    run pca_project page = map Progress ps ++ [last] /\
    StronglySorted Z.lt ps /\
    hd_error ps = Some 20%Z /\
    match last with
    | Progress _ => False
    | Finished data =>
        ps = [20; 60; 80; 100]%Z /\
        exists t, page = Page t /\
                  analyze pca_project (scrape_rows t) = Ok data
    | Error RequestFailed => ps = [20%Z] /\ page = FetchRaised
    | Error (EngineFailed e) =>
        ps = [20; 60; 80]%Z /\
        exists t, page = Page t /\
                  analyze pca_project (scrape_rows t) = Raise e
    end.
Proof.
  destruct page as [| t]; simpl.
  - exists [20%Z], (Error RequestFailed).
    repeat split; repeat constructor.
  - destruct (analyze pca_project (scrape_rows t)) as [data | e] eqn:E.
    + exists [20; 60; 80; 100]%Z, (Finished data).
      split; [unfold run; now rewrite E |].
      split; [repeat constructor; lia |].
      split; [reflexivity |]. split; [reflexivity |]. eauto.
    + exists [20; 60; 80]%Z, (Error (EngineFailed e)).
      split; [unfold run; now rewrite E |].
      split; [repeat constructor; lia |].
      split; [reflexivity |]. split; [reflexivity |]. eauto.
Qed.

(** X17.  The data of a [finished] signal is never empty: it has one
    record for every record [scrape] made, and there is at least one.
    The branch of [populate_table] for empty data is not reached from
    this signal. *)
Theorem finished_data_is_not_empty (page : fetched) (data : list record) :
  In (Finished data) (run pca_project page) ->
  data <> [] /\
  exists t, page = Page t /\ scrape_rows t <> [] /\
            List.length data = List.length (scrape_rows t).
Proof.
  destruct page as [| t]; simpl.
  - intros [H | [H | []]]; discriminate.
  - destruct (analyze pca_project (scrape_rows t)) as [out | e] eqn:E; simpl.
    + intros [H | [H | [H | [H | [H | []]]]]]; try discriminate.
      injection H as <-.
      destruct (analyze_output_nonempty _ _ E) as (Hm & Ho & Hl).
      split; [exact Ho |]. exists t. auto.
    + intros [H | [H | [H | [H | []]]]]; discriminate.
Qed.

(** X18.  When [scrape] makes no record (no table, no row, or only the
    header row), the thread emits the progress values 20, 60 and 80 and
    then [error] with the [ValueError] of the engine; it does not emit
    [finished]. *)
Theorem run_without_records (t : table) :
  scrape_rows t = [] ->
  run pca_project (Page t)
  = [Progress 20; Progress 60; Progress 80; Error (EngineFailed ValueError)].
Proof.
  intros H. unfold run. rewrite H. now rewrite analyze_empty.
Qed.

End ThreadSignals.

Lemma finished_data_is_not_empty_witness :
  [Sample.alpha ++ [CFloat NaN]] <> [] /\
  exists t, Gui.Page (Some [Sample.header_text; Sample.alpha_text])
            = Gui.Page t /\
            Engine.scrape_rows t <> [] /\
            List.length [Sample.alpha ++ [CFloat NaN]]
            = List.length (Engine.scrape_rows t).
Proof.
  apply (finished_data_is_not_empty Sample.no_pca
           (Gui.Page (Some [Sample.header_text; Sample.alpha_text]))
           [Sample.alpha ++ [CFloat NaN]]).
  unfold Gui.run. rewrite scrape_rows_alpha, (analyze_alpha Sample.no_pca).
  simpl. tauto.
Defined.

Lemma run_without_records_witness :
  Gui.run Sample.no_pca (Gui.Page (Some [Sample.header_text]))
  = [Gui.Progress 20; Gui.Progress 60; Gui.Progress 80;
     Gui.Error (Gui.EngineFailed ValueError)].
Proof.
  exact (run_without_records Sample.no_pca (Some [Sample.header_text])
           eq_refl).
Defined.

(** ** The colours of [populate_table] *)

Section Colours.

Import PyStr Mat Engine Gui.

Variable pca_project : array2 -> list R -> R.

Lemma remove_char_absent (a : ascii) (s : string) :
  Forall (fun c => Ascii.eqb c a = false) (list_ascii_of_string s) ->
  remove_char a s = s.
Proof.
  induction s as [| c s IH]; simpl; [reflexivity |].
  intros H. inversion H as [| ? ? Hc Hs]; subst.
  now rewrite Hc, IH.
Qed.

(** [float] reads an optional minus sign followed by digits. *)
Lemma py_float_integer (neg : bool) (ds : list ascii) :
  ds <> [] -> Forall (fun c => is_digit c = true) ds ->
  py_float (string_of_list_ascii ((if neg then ["-"%char] else []) ++ ds))
  = Some (Fin (let q := inject_Z (digits_value ds * 1) in
               if neg then Qopp q else q)).
Proof.
  intros Hne Hds.
  destruct ds as [| c rest] eqn:Eds; [congruence |]. rewrite <- Eds in *.
  assert (Hc : is_digit c = true) by (rewrite Eds in Hds; now inversion Hds).
  unfold py_float. rewrite list_ascii_of_string_of_list_ascii.
  rewrite strip_no_space by now apply signed_digits_no_space.
  rewrite drop_underscores_none;
    [| reflexivity | now apply signed_digits_without].
  assert (Hsign : take_sign ((if neg then ["-"%char] else []) ++ ds)
                  = (neg, ds)).
  { destruct neg; [reflexivity |]. simpl. rewrite Eds.
    apply take_sign_unsigned; now apply digit_not_char. }
  rewrite Hsign. cbv beta iota zeta.
  assert (Hword : forall w : string,
             (w = "inf" \/ w = "infinity" \/ w = "nan")%string ->
             String.eqb (string_of_list_ascii (map lower ds)) w = false).
  { intros w Hw. rewrite Eds. cbn [map string_of_list_ascii].
    rewrite (digit_lower c Hc).
    destruct Hw as [-> | [-> | ->]]; cbn [String.eqb];
      rewrite (digit_not_char c) by (reflexivity || exact Hc); reflexivity. }
  rewrite !Hword by tauto. cbn [orb].
  rewrite (span_digits_all ds Hds). cbv beta iota zeta.
  rewrite app_nil_r. rewrite Eds at 1. reflexivity.
Qed.

Lemma reread_int (z : Z) : reread (CInt z) = Some (Fin (IZR z)).
Proof.
  destruct (str_int_shape z) as (neg & ds & Hshape & Hne & Hds & Hz).
  unfold reread.
  rewrite remove_char_absent
    by (rewrite Hshape; now apply signed_digits_without).
  rewrite <- (string_of_list_ascii_of_string (str_int z)), Hshape.
  rewrite py_float_integer by assumption.
  cbv zeta. unfold option_map, np_of_py, xmap. do 2 f_equal.
  rewrite Z.mul_1_r.
  destruct neg; subst z.
  - rewrite Q2R_opp, opp_IZR. f_equal.
    unfold Q2R, inject_Z. simpl. field.
  - unfold Q2R, inject_Z. simpl. field.
Qed.

(** X19.  Only the columns 4, 5, 6, 8 and 11 are ever coloured.  In
    them an integer cell is green when the integer is positive, red when
    it is negative, and keeps the default colour when it is 0: what
    [str] writes for an integer, [float] reads back as that integer. *)
Theorem integer_cell_colour (col_idx : nat) (z : Z) (value : cell) :
  (existsb (Nat.eqb col_idx) [4; 5; 6; 8; 11]%nat = false ->
   foreground col_idx value = None) /\
  (existsb (Nat.eqb col_idx) [4; 5; 6; 8; 11]%nat = true ->
   foreground col_idx (CInt z)
   = if (0 <? z)%Z then Some Green
     else if (z <? 0)%Z then Some Red else None).
Proof.
  unfold foreground. split; intros ->; [reflexivity |].
  rewrite reread_int. simpl.
  destruct (Z.ltb_spec 0 z) as [Hp | Hp].
  - destruct (Rlt_dec 0 (IZR z)) as [_ | Hn]; [reflexivity |].
    exfalso. apply Hn. now apply (IZR_lt 0 z).
  - destruct (Rlt_dec 0 (IZR z)) as [Hn | _].
    { apply (lt_IZR 0 z) in Hn. lia. }
    destruct (Z.ltb_spec z 0) as [Hq | Hq].
    + destruct (Rlt_dec (IZR z) 0) as [_ | Hn]; [reflexivity |].
      exfalso. apply Hn. now apply (IZR_lt z 0).
    + destruct (Rlt_dec (IZR z) 0) as [Hn | _]; [| reflexivity].
      apply (lt_IZR z 0) in Hn. lia.
Qed.

(** A composite score is NaN or a finite value of [0, 1). *)
Lemma composite_kind (matrix : list record) (final : list npfloat) :
  scores pca_project matrix = Ok final ->
  Forall (fun s => s = NaN \/ exists v, s = Fin v /\ (0 <= v < 1)%R) final.
Proof.
  intros Hs.
  assert (Hp : exists X Xs, prepare matrix = Ok (X, Xs)).
  { unfold scores in Hs.
    destruct (prepare matrix) as [[X Xs] |]; [eauto | discriminate]. }
  destruct Hp as (X & Xs & Hp).
  destruct (columns_alike_or_not X 9) as [Halike | [j [Hj Hd]]].
  - rewrite (scores_of_alike pca_project _ _ _ Hp Halike) in Hs.
    injection Hs as <-. apply Forall_forall. intros s Hin.
    left. now apply repeat_spec in Hin.
  - destruct (scores_of_distinct pca_project _ _ _ j Hp Hj Hd) as [ts Hts].
    rewrite Hts in Hs. injection Hs as <-.
    eapply Forall_impl; [| apply final_score_below_one].
    intros s H. now right.
Qed.

(** X20.  When the records of the input have their 11 cells and no
    more, every record of the output has 12, the twelfth being its
    composite score, the key it is ranked by.  In the table the score
    is green when it is above 0 and keeps the default colour when it is
    0 or NaN; it is never red. *)
Theorem score_is_never_red (matrix out : list record) :
  analyze pca_project matrix = Ok out ->
  Forall (fun row => List.length row = 11%nat) matrix ->
  Forall (fun r =>
            List.length r = 12%nat /\
            exists s, nth_error r 11 = Some (CFloat s) /\ key r = s /\
                      foreground 11 (CFloat s) <> Some Red /\
                      (foreground 11 (CFloat s) = Some Green <->
                       exists v, s = Fin v /\ (0 < v)%R)) out.
Proof.
  intros H Hlen.
  destruct (analyze_inv pca_project _ _ H)
    as (X & Xs & final & Hp & Hs & Hl & ->).
  pose proof (composite_kind _ _ Hs) as Hkind.
  eapply Permutation_Forall; [apply sorted_reverse_perm |].
  apply Forall_forall. intros r Hr.
  apply append_scores_In in Hr as (row & s & Hrow & Hin & ->).
  rewrite Forall_forall in Hlen, Hkind.
  pose proof (Hlen row Hrow) as Hrl. pose proof (Hkind s Hin) as Hsk.
  split; [rewrite length_app, Hrl; reflexivity |].
  exists s.
  split; [rewrite nth_error_app2, Hrl by lia; reflexivity |].
  split; [apply key_append |].
  unfold foreground. simpl.
  destruct Hsk as [-> | (v & -> & Hv)]; simpl.
  - split; [discriminate |].
    split; [discriminate | intros (v & Hv & _); discriminate].
  - destruct (Rlt_dec 0 v) as [Hpos | Hnpos].
    + split; [discriminate |]. split; [eauto | reflexivity].
    + destruct (Rlt_dec v 0) as [Hneg | _]; [lra |].
      split; [discriminate |].
      split; [discriminate |].
      intros (v' & Hv' & Hpos'). injection Hv' as <-. lra.
Qed.

End Colours.

Lemma score_is_never_red_witness :
  exists out,
    Engine.analyze Sample.no_pca [Sample.alpha; Sample.beta] = Ok out /\
    Forall (fun r =>
              List.length r = 12%nat /\
              exists s, nth_error r 11 = Some (CFloat s) /\
                        Engine.key r = s /\
                        Gui.foreground 11 (CFloat s) <> Some Gui.Red /\
                        (Gui.foreground 11 (CFloat s) = Some Gui.Green <->
                         exists v, s = Fin v /\ (0 < v)%R)) out.
Proof.
  destruct (analyze_alpha_beta Sample.no_pca) as [out H].
  exists out. split; [exact H |].
  apply (score_is_never_red Sample.no_pca [Sample.alpha; Sample.beta] out H).
  repeat constructor.
Defined.
